(** * alpha-k8s: the create-namespace command and its revert stack

    A shallow embedding of

    - the [createNamespace] command (CloudFormation stack creation, the
      polling loop that waits for the stack, the Kubernetes namespace and
      the two namespace users), whose CloudFormation client [cf] comes
      from the AWS utilities, and
    - [commands/create-namespace/create-kubernetes-namespace-user.command.ts]
      (the [createKubernetesNamespaceUser] command: role, role binding and
      the [aws-auth] mapping entry),

    together with the JavaScript built-ins they rely on (regular-expression
    matching, [JSON.parse], [Object.entries], [Array.prototype.sort]).

    Asynchronous code is written in a state-and-exception monad [M]: every
    awaited call is answered by an environment [Env], and everything the
    program does to the outside world is appended to a trace. *)

From Stdlib Require Import String Ascii List ZArith NArith Bool Arith Lia.
From Stdlib Require Import Sorted Permutation RelationClasses DecimalString.
Import ListNotations.
Open Scope string_scope.

Set Warnings "-register-all".

(* ================================================================== *)
(** * JavaScript strings *)
(* ================================================================== *)

Module Js.

(** Strings are byte strings; the source only ever inspects ASCII
    characters of them. *)

Definition code (c : ascii) : N := N_of_ascii c.

Definition between (lo hi c : ascii) : bool :=
  ((code lo <=? code c) && (code c <=? code hi))%N.

Definition is_upper (c : ascii) : bool := between "A" "Z" c.
Definition is_lower (c : ascii) : bool := between "a" "z" c.
Definition is_digit (c : ascii) : bool := between "0" "9" c.

Definition lower (c : ascii) : ascii :=
  if is_upper c then ascii_of_N (code c + 32) else c.

Definition upper (c : ascii) : ascii :=
  if is_lower c then ascii_of_N (code c - 32) else c.

(** [s.toLowerCase()] *)
Fixpoint toLowerCase (s : string) : string :=
  match s with
  | EmptyString => EmptyString
  | String c s' => String (lower c) (toLowerCase s')
  end.

(** [hay.includes(needle)] *)
Fixpoint includes (hay needle : string) : bool :=
  prefix needle hay
  || match hay with
     | EmptyString => false
     | String _ hay' => includes hay' needle
     end.

(** Truthiness of a string: every string but the empty one. *)
Definition truthy (s : string) : bool := negb (s =? "").

(** Truthiness of a possibly [undefined] string. *)
Definition truthy_opt (o : option string) : bool :=
  match o with
  | Some s => truthy s
  | None => false
  end.

(** A possibly [undefined] string inside a template literal. *)
Definition show (o : option string) : string :=
  match o with
  | Some s => s
  | None => "undefined"
  end.

(** [ids.includes(id)] on an array of strings. *)
Definition array_includes (ids : list string) (id : string) : bool :=
  existsb (String.eqb id) ids.

Definition of_nat (n : nat) : string :=
  NilEmpty.string_of_uint (Nat.to_uint n).

(** The double-quote character, and a string between double quotes. *)
Definition quote : ascii := Eval cbv in ascii_of_N 34.

Definition quoted (s : string) : string :=
  String quote s ++ String quote "".

(** A plain object used as a dictionary, [Record<string, V>]: assigning to
    a key that is present replaces its value in place. *)
Fixpoint set {V : Type} (o : list (string * V)) (k : string) (v : V)
  : list (string * V) :=
  match o with
  | [] => [(k, v)]
  | (k', v') :: rest =>
      if k' =? k then (k', v) :: rest else (k', v') :: set rest k v
  end.

Fixpoint get {V : Type} (o : list (string * V)) (k : string) : option V :=
  match o with
  | [] => None
  | (k', v) :: rest => if k' =? k then Some v else get rest k
  end.

End Js.

(* ================================================================== *)
(** * Regular expressions *)
(* ================================================================== *)

Module RegExp.

(** The fragment of regular expressions the sources use: character
    classes given by ranges, sequence, alternative and iteration. *)
Inductive t : Type :=
| Never
| Empty
| Class (ranges : list (ascii * ascii))
| Seq (r1 r2 : t)
| Alt (r1 r2 : t)
| Star (r : t).

(** A pattern anchored at both ends ([^body$], no [m] flag, so [$] is the
    end of the input), with its [i] flag. *)
Record anchored : Type := { body : t; ignoreCase : bool }.

Fixpoint nullable (r : t) : bool :=
  match r with
  | Never => false
  | Empty => true
  | Class _ => false
  | Seq r1 r2 => nullable r1 && nullable r2
  | Alt r1 r2 => nullable r1 || nullable r2
  | Star _ => true
  end.

(** Membership of a class. With the [i] flag two characters are equal
    when their canonical (upper-case) forms are; only ASCII letters have
    another character with the same canonical form. *)
Definition in_ranges (ranges : list (ascii * ascii)) (c : ascii) : bool :=
  existsb (fun r => Js.between (fst r) (snd r) c) ranges.

Definition in_class (i : bool) (ranges : list (ascii * ascii)) (c : ascii)
  : bool :=
  if i
  then in_ranges ranges c || in_ranges ranges (Js.lower c)
       || in_ranges ranges (Js.upper c)
  else in_ranges ranges c.

Definition seq' (r1 r2 : t) : t :=
  match r1 with
  | Never => Never
  | Empty => r2
  | _ => Seq r1 r2
  end.

Definition alt' (r1 r2 : t) : t :=
  match r1, r2 with
  | Never, _ => r2
  | _, Never => r1
  | _, _ => Alt r1 r2
  end.

(** Brzozowski derivative: what is left to match after reading [c]. *)
Fixpoint deriv (i : bool) (r : t) (c : ascii) : t :=
  match r with
  | Never => Never
  | Empty => Never
  | Class ranges => if in_class i ranges c then Empty else Never
  | Seq r1 r2 =>
      alt' (seq' (deriv i r1 c) r2)
           (if nullable r1 then deriv i r2 c else Never)
  | Alt r1 r2 => alt' (deriv i r1 c) (deriv i r2 c)
  | Star r1 => seq' (deriv i r1 c) (Star r1)
  end.

Fixpoint matches_rest (i : bool) (r : t) (s : string) : bool :=
  match s with
  | EmptyString => nullable r
  | String c s' => matches_rest i (deriv i r c) s'
  end.

(** [s.match(re)] is not [null]. *)
Definition matches (re : anchored) (s : string) : bool :=
  matches_rest (ignoreCase re) (body re) s.

Definition opt (r : t) : t := Alt Empty r.
Definition plus (r : t) : t := Seq r (Star r).
Definition char (c : ascii) : t := Class [(c, c)].

End RegExp.

(* ================================================================== *)
(** * JSON values, [JSON.parse] and [Object.entries] *)
(* ================================================================== *)

Module JSON.

(** A number keeps its source text: the sources only test a number for
    truthiness and paste it into a log line. JavaScript rounds the text to
    a double: [to_string] is exact for plain integers below 2^53, and
    [truthy] for every text that does not round to zero without being
    written as zero. No statement below depends on a number. *)
Inductive value : Type :=
| Null
| Bool (b : bool)
| Number (lexeme : string)
| Str (s : string)
| Array (items : list value)
| Object (members : list (string * value)).

Inductive token : Type :=
| TLBrace | TRBrace | TLBracket | TRBracket | TColon | TComma
| TLit (v : value).

(** ** Lexer: one character at a time *)

Inductive mode : Type :=
| Between
| InString (acc : string)
| InEscape (acc : string)
| InUnicode (acc : string) (digits : list N)
| InNumber (acc : string)
| InWord (acc : string).

Definition snoc (s : string) (c : ascii) : string := s ++ String c "".

Definition is_ws (c : ascii) : bool :=
  (Js.code c =? 32)%N || (Js.code c =? 9)%N || (Js.code c =? 10)%N
  || (Js.code c =? 13)%N.

Definition hex_digit (c : ascii) : option N :=
  if Js.is_digit c then Some (Js.code c - 48)%N
  else if Js.between "a" "f" c then Some (Js.code c - 87)%N
  else if Js.between "A" "F" c then Some (Js.code c - 55)%N
  else None.

Definition byte (n : N) : string := String (ascii_of_N n) "".

(** UTF-8 bytes of the code unit of a [\uXXXX] escape (the two halves of
    a surrogate pair are encoded one by one). *)
Definition utf8 (n : N) : string :=
  (if n <? 128 then byte n
   else if n <? 2048 then byte (192 + n / 64) ++ byte (128 + n mod 64)
   else byte (224 + n / 4096) ++ byte (128 + (n / 64) mod 64)
        ++ byte (128 + n mod 64))%N.

Definition code_unit (digits : list N) : N :=
  fold_left (fun acc d => acc * 16 + d)%N digits 0%N.

Definition escape (c : ascii) : option string :=
  match c with
  | "\"%char => Some (String c "")
  | "/"%char => Some (String c "")
  | "b"%char => Some (byte 8)
  | "f"%char => Some (byte 12)
  | "n"%char => Some (byte 10)
  | "r"%char => Some (byte 13)
  | "t"%char => Some (byte 9)
  | _ => if Ascii.eqb c Js.quote then Some (String c "") else None
  end.

Definition digits : RegExp.t := RegExp.plus (RegExp.Class [("0", "9")]%char).

(** The number grammar of JSON: an optional minus sign; then [0], or a
    digit [1-9] followed by digits; then optionally a dot and digits; then
    optionally an exponent ([e] or [E], an optional sign, digits). *)
Definition number_grammar : RegExp.anchored :=
  {| RegExp.body :=
       RegExp.Seq (RegExp.opt (RegExp.char "-"))
         (RegExp.Seq
            (RegExp.Alt (RegExp.char "0")
               (RegExp.Seq (RegExp.Class [("1", "9")]%char)
                  (RegExp.Star (RegExp.Class [("0", "9")]%char))))
            (RegExp.Seq
               (RegExp.opt (RegExp.Seq (RegExp.char ".") digits))
               (RegExp.opt
                  (RegExp.Seq (RegExp.Class [("e", "e"); ("E", "E")]%char)
                     (RegExp.Seq
                        (RegExp.opt
                           (RegExp.Class [("+", "+"); ("-", "-")]%char))
                        digits)))));
     RegExp.ignoreCase := false |}.

Definition number_char (c : ascii) : bool :=
  Js.is_digit c
  || existsb (Ascii.eqb c) ["+"; "-"; "."; "e"; "E"]%char.

Definition finish_number (acc : string) : option token :=
  if RegExp.matches number_grammar acc then Some (TLit (Number acc))
  else None.

Definition finish_word (acc : string) : option token :=
  if acc =? "true" then Some (TLit (Bool true))
  else if acc =? "false" then Some (TLit (Bool false))
  else if acc =? "null" then Some (TLit Null)
  else None.

(** A character met between two tokens. *)
Definition lex_between (c : ascii) : option (mode * list token) :=
  if is_ws c then Some (Between, [])
  else if Js.is_digit c || Ascii.eqb c "-"
  then Some (InNumber (String c ""), [])
  else if Js.is_lower c then Some (InWord (String c ""), [])
  else
    match c with
    | "{"%char => Some (Between, [TLBrace])
    | "}"%char => Some (Between, [TRBrace])
    | "["%char => Some (Between, [TLBracket])
    | "]"%char => Some (Between, [TRBracket])
    | ":"%char => Some (Between, [TColon])
    | ","%char => Some (Between, [TComma])
    | _ =>
        if Ascii.eqb c Js.quote then Some (InString EmptyString, []) else None
    end.

Definition after (t : option token) (c : ascii) : option (mode * list token) :=
  match t, lex_between c with
  | Some t, Some (m, ts) => Some (m, t :: ts)
  | _, _ => None
  end.

Definition lex_step (m : mode) (c : ascii) : option (mode * list token) :=
  match m with
  | Between => lex_between c
  | InString acc =>
      if Ascii.eqb c Js.quote then Some (Between, [TLit (Str acc)])
      else if Ascii.eqb c "\" then Some (InEscape acc, [])
      else if (Js.code c <? 32)%N then None
      else Some (InString (snoc acc c), [])
  | InEscape acc =>
      if Ascii.eqb c "u" then Some (InUnicode acc [], [])
      else match escape c with
           | Some s => Some (InString (acc ++ s), [])
           | None => None
           end
  | InUnicode acc ds =>
      match hex_digit c with
      | Some d =>
          if (length ds =? 3)%nat
          then Some (InString (acc ++ utf8 (code_unit (ds ++ [d]))), [])
          else Some (InUnicode acc (ds ++ [d]), [])
      | None => None
      end
  | InNumber acc =>
      if number_char c then Some (InNumber (snoc acc c), [])
      else after (finish_number acc) c
  | InWord acc =>
      if Js.is_lower c then Some (InWord (snoc acc c), [])
      else after (finish_word acc) c
  end.

Definition lex_end (m : mode) : option (list token) :=
  match m with
  | Between => Some []
  | InNumber acc => option_map (fun t => [t]) (finish_number acc)
  | InWord acc => option_map (fun t => [t]) (finish_word acc)
  | _ => None
  end.

Fixpoint lex (m : mode) (s : string) : option (list token) :=
  match s with
  | EmptyString => lex_end m
  | String c s' =>
      match lex_step m c with
      | Some (m', ts) => option_map (app ts) (lex m' s')
      | None => None
      end
  end.

(** ** Parser: one token at a time, with a stack of open containers *)

Inductive frame : Type :=
| InArray (items_rev : list value)
| InObject (members_rev : list (string * value)) (key : option string).

Inductive expect : Type :=
| Value | ValueOrClose | KeyOrClose | Key | Colon | CommaOrClose
| Done (v : value).

(** Defining the properties in source order: a key given twice keeps its
    first place and takes the last value. *)
Definition make_object (members_rev : list (string * value)) : value :=
  Object (fold_left (fun ms kv => Js.set ms (fst kv) (snd kv))
            (rev members_rev) []).

Definition put (v : value) (stack : list frame)
  : option (list frame * expect) :=
  match stack with
  | [] => Some ([], Done v)
  | InArray items :: st => Some (InArray (v :: items) :: st, CommaOrClose)
  | InObject ms (Some k) :: st =>
      Some (InObject ((k, v) :: ms) None :: st, CommaOrClose)
  | InObject _ None :: _ => None
  end.

Definition open_value (t : token) (stack : list frame)
  : option (list frame * expect) :=
  match t with
  | TLit v => put v stack
  | TLBracket => Some (InArray [] :: stack, ValueOrClose)
  | TLBrace => Some (InObject [] None :: stack, KeyOrClose)
  | _ => None
  end.

Definition read_key (t : token) (stack : list frame)
  : option (list frame * expect) :=
  match t, stack with
  | TLit (Str k), InObject ms None :: st =>
      Some (InObject ms (Some k) :: st, Colon)
  | _, _ => None
  end.

Definition close (t : token) (stack : list frame)
  : option (list frame * expect) :=
  match t, stack with
  | TRBracket, InArray items :: st => put (Array (rev items)) st
  | TRBrace, InObject ms None :: st => put (make_object ms) st
  | _, _ => None
  end.

Definition parse_step (stack : list frame) (e : expect) (t : token)
  : option (list frame * expect) :=
  match e with
  | Value => open_value t stack
  | ValueOrClose =>
      match t with
      | TRBracket => close t stack
      | _ => open_value t stack
      end
  | KeyOrClose =>
      match t with
      | TRBrace => close t stack
      | _ => read_key t stack
      end
  | Key => read_key t stack
  | Colon =>
      match t with
      | TColon => Some (stack, Value)
      | _ => None
      end
  | CommaOrClose =>
      match t, stack with
      | TComma, InArray _ :: _ => Some (stack, Value)
      | TComma, InObject _ None :: _ => Some (stack, Key)
      | _, _ => close t stack
      end
  | Done _ => None
  end.

Fixpoint parse_tokens (stack : list frame) (e : expect) (ts : list token)
  : option value :=
  match ts with
  | [] => match e with
          | Done v => Some v
          | _ => None
          end
  | t :: ts' =>
      match parse_step stack e t with
      | Some (stack', e') => parse_tokens stack' e' ts'
      | None => None
      end
  end.

(** [JSON.parse(text)]; [None] is the [SyntaxError]. *)
Definition parse (text : string) : option value :=
  match lex Between text with
  | Some ts => parse_tokens [] Value ts
  | None => None
  end.

(** ** Values as the sources use them *)

Definition number_nonzero (lexeme : string) : bool :=
  (fix mantissa (s : string) : bool :=
     match s with
     | EmptyString => false
     | String c s' =>
         if Ascii.eqb c "e" || Ascii.eqb c "E" then false
         else Js.between "1" "9" c || mantissa s'
     end) lexeme.

Definition truthy (v : value) : bool :=
  match v with
  | Null => false
  | Bool b => b
  | Number lexeme => number_nonzero lexeme
  | Str s => Js.truthy s
  | Array _ => true
  | Object _ => true
  end.

(** A value inside a template literal. *)
Fixpoint to_string (v : value) : string :=
  match v with
  | Null => "null"
  | Bool true => "true"
  | Bool false => "false"
  | Number lexeme => lexeme
  | Str s => s
  | Array items =>
      String.concat ","
        (map (fun x => match x with
                       | Null => ""
                       | _ => to_string x
                       end) items)
  | Object _ => "[object Object]"
  end.

(** Keys that are array indices come first, in ascending order. *)
Definition array_index (k : string) : option N :=
  match k with
  | EmptyString => None
  | String c rest =>
      if (k =? "0") then Some 0%N
      else if Js.between "1" "9" c
              && forallb Js.is_digit (list_ascii_of_string rest)
      then
        let n := fold_left (fun acc d => acc * 10 + (Js.code d - 48))%N
                   (list_ascii_of_string k) 0%N in
        if (n <=? 4294967294)%N then Some n else None
      else None
  end.

Fixpoint insert_index (n : N) (kv : string * value)
  (l : list (N * (string * value))) : list (N * (string * value)) :=
  match l with
  | [] => [(n, kv)]
  | (m, kv') :: rest =>
      if (n <=? m)%N then (n, kv) :: l else (m, kv') :: insert_index n kv rest
  end.

Definition own_entries (members : list (string * value))
  : list (string * value) :=
  let indexed :=
    fold_right (fun kv acc =>
                  match array_index (fst kv) with
                  | Some n => insert_index n kv acc
                  | None => acc
                  end) [] members in
  map snd indexed
  ++ filter (fun kv => match array_index (fst kv) with
                       | Some _ => false
                       | None => true
                       end) members.

Definition number_from (start : nat) (vs : list value)
  : list (string * value) :=
  map (fun iv => (Js.of_nat (fst iv), snd iv))
      (combine (seq start (length vs)) vs).

(** [Object.entries(v)]; [None] is the [TypeError] raised for [null]. *)
Definition entries (v : value) : option (list (string * value)) :=
  match v with
  | Null => None
  | Bool _ => Some []
  | Number _ => Some []
  | Str s =>
      Some (number_from 0
              (map (fun c => Str (String c "")) (list_ascii_of_string s)))
  | Array items => Some (number_from 0 items)
  | Object members => Some (own_entries members)
  end.

End JSON.

(* ================================================================== *)
(** * Data exchanged with CloudFormation and Kubernetes *)
(* ================================================================== *)

(** The fields of a CloudFormation stack event that the sources read.
    [Timestamp] is [e.Timestamp.getTime()], in milliseconds. *)
Record StackEvent : Type := {
  EventId : string;
  Timestamp : Z;
  ResourceType : option string;
  ResourceStatus : option string;
  ResourceStatusReason : option string;
  ResourceProperties : option string
}.

Record Output : Type := {
  OutputKey : option string;
  OutputValue : option string
}.

Record Stack : Type := {
  StackStatus : string;
  Outputs : option (list Output)
}.

Record PolicyRule : Type := {
  apiGroups : option (list string);
  nonResourceURLs : option (list string);
  resourceNames : option (list string);
  resources : option (list string);
  verbs : option (list string)
}.

(** One entry of the [mapRoles] list of the [aws-auth] config map. The
    list is kept parsed: [YAML.load] of what [YAML.dump] wrote is taken to
    be the list itself. *)
Record MapRole : Type := {
  groups : list string;
  rolearn : string;
  username : string
}.

(** The awaited calls, with the arguments that vary. *)
Inductive Call : Type :=
| makeDir (path : string)
| cf_createStack (StackName NamespaceName : string)
| cf_deleteStack (StackName : string)
| cf_waitFor_stackDeleteComplete (StackName : string)
| cf_describeStacks (StackName : string)
| cf_describeStackEvents (StackName : string)
| k8s_createNamespace (name : string)
| k8s_deleteNamespace (name : string)
| k8s_createNamespacedRole (namespace name : string)
    (rules : list PolicyRule)
| k8s_deleteNamespacedRole (name namespace : string)
| k8s_createNamespacedRoleBinding (namespace name group role : string)
| k8s_deleteNamespacedRoleBinding (name namespace : string)
| k8s_readNamespacedConfigMap (name namespace : string)
| k8s_replaceNamespacedConfigMap (name namespace : string)
    (mapRoles : list MapRole).

(** The closures handed to [revertStack.add], each with the variables it
    captures. *)
Inductive Compensation : Type :=
| RemoveStack (StackName : string)
| DeleteNamespace (namespaceName : string)
| DeleteRole (name kubernetesRoleName namespaceName : string)
| DeleteRoleBinding (name kubernetesRoleBindingName namespaceName : string)
| RemoveMapRole (roleArn : string).

Inductive JsError : Type :=
| Error (message : string)
| SyntaxError (text : string)
| TypeError (message : string)
| Rejected (message : string).

(** What the program does, in order. [Published] is the [Logger.log] of the
    polling loop, kept with the stack event it reports. *)
Inductive Event : Type :=
| Called (c : Call) (fulfilled : bool)
| Slept (ms : nat)
| Logged (tag message : string)
| Published (e : StackEvent) (tag message : string)
| Added (c : Compensation)
| Invoked (c : Compensation)
| Reported (c : Compensation) (e : JsError).

(** The answers of the outside world, by the number of calls awaited
    before: whether the call is rejected, and what a read returns. *)
Record Env : Type := {
  rejects : nat -> option string;
  Stacks : nat -> option (list Stack);
  StackEvents : nat -> option (list StackEvent);
  mapRoles : nat -> list MapRole
}.

(** [revertStack] is the one object passed by reference to [execute] and
    on to every nested [exec]; [publishedEventIds] is the array of the
    polling loop. *)
Record State : Type := {
  awaited : nat;
  revertStack : list Compensation;
  publishedEventIds : list string;
  trace : list Event
}.

Definition initial : State :=
  {| awaited := 0; revertStack := []; publishedEventIds := []; trace := [] |}.

(* ================================================================== *)
(** * The monad of asynchronous code *)
(* ================================================================== *)

(** [Polling]: the loop was still waiting when the fuel ran out. *)
Inductive Result (A : Type) : Type :=
| Ok (a : A)
| Threw (e : JsError)
| Polling.

Arguments Ok {A} a.
Arguments Threw {A} e.
Arguments Polling {A}.

Definition M (A : Type) : Type := State -> Result A * State.

Definition ret {A : Type} (a : A) : M A := fun s => (Ok a, s).

Definition throw {A : Type} (e : JsError) : M A := fun s => (Threw e, s).

Definition bind {A B : Type} (m : M A) (k : A -> M B) : M B :=
  fun s =>
    match m s with
    | (Ok a, s') => k a s'
    | (Threw e, s') => (Threw e, s')
    | (Polling, s') => (Polling, s')
    end.

Declare Scope monad_scope.
Delimit Scope monad_scope with monad.
Notation "x <- m ;; k" := (bind m (fun x => k))
  (at level 61, m at next level, right associativity) : monad_scope.
Notation "m ;; k" := (bind m (fun _ => k))
  (at level 61, right associativity) : monad_scope.
Open Scope monad_scope.

Definition emit (ev : Event) (s : State) : State :=
  {| awaited := awaited s;
     revertStack := revertStack s;
     publishedEventIds := publishedEventIds s;
     trace := (trace s ++ [ev])%list |}.

Definition tick (s : State) : State :=
  {| awaited := S (awaited s);
     revertStack := revertStack s;
     publishedEventIds := publishedEventIds s;
     trace := trace s |}.

Definition register (c : Compensation) (s : State) : State :=
  {| awaited := awaited s;
     revertStack := (revertStack s ++ [c])%list;
     publishedEventIds := publishedEventIds s;
     trace := trace s |}.

Definition set_published (ids : list string) (s : State) : State :=
  {| awaited := awaited s;
     revertStack := revertStack s;
     publishedEventIds := ids;
     trace := trace s |}.

(** [Logger.log(tag, message)] *)
Definition Logger_log (tag message : string) : M unit :=
  fun s => (Ok tt, emit (Logged tag message) s).

(** [await sleep(ms)] *)
Definition sleep (ms : nat) : M unit :=
  fun s => (Ok tt, emit (Slept ms) s).

(** Modelled from the spec: [revertStack.add] of [@lpha/core], which is not
    among the sources. It appends the compensation to the shared
    sequence. *)
Definition add (c : Compensation) : M unit :=
  fun s => (Ok tt, emit (Added c) (register c s)).

(** Reading and writing the array of published event ids. *)
Definition published : M (list string) :=
  fun s => (Ok (publishedEventIds s), s).

Definition push (id : string) : M unit :=
  fun s => (Ok tt, set_published (publishedEventIds s ++ [id])%list s).

Definition reset_published : M unit :=
  fun s => (Ok tt, set_published [] s).

(** [items.forEach(body)] *)
Fixpoint forEach {A : Type} (body : A -> M unit) (items : list A) : M unit :=
  match items with
  | [] => ret tt
  | x :: rest => body x ;; forEach body rest
  end.

(** [array.sort((e1, e2) => e1.Timestamp.getTime() - e2.Timestamp.getTime())]:
    the sort is stable, so the result is the one of inserting each event
    before the first later-placed event that is not older. *)
Fixpoint insert (e : StackEvent) (sorted : list StackEvent)
  : list StackEvent :=
  match sorted with
  | [] => [e]
  | x :: rest =>
      if (Timestamp e <=? Timestamp x)%Z then e :: sorted
      else x :: insert e rest
  end.

Definition sort (events : list StackEvent) : list StackEvent :=
  fold_right insert [] events.

(** The parameters and the tag of the two commands. *)
Module User.

Record Params : Type := {
  clusterName : string;
  namespaceName : string;
  roleArn : option string;
  suffix : string;
  rbacRules : list PolicyRule
}.

Definition TAG : string := "CreateK8sNamespaceUser".

End User.

Module Namespace.

Record Params : Type := {
  clusterName : string;
  namespaceName : string
}.

Definition TAG : string := "create-namespace".

End Namespace.

Section Program.

Variable env : Env.

(** An awaited call: it is answered by the environment, and its number is
    what the reads are looked up with. *)
Definition await (c : Call) : M nat :=
  fun s =>
    let n := awaited s in
    match rejects env n with
    | Some message => (Threw (Rejected message), emit (Called c false) (tick s))
    | None => (Ok n, emit (Called c true) (tick s))
    end.

Definition aws_auth : string := "aws-auth".
Definition kube_system : string := "kube-system".

(** Running a compensation: the bodies of the closures of both
    commands. *)
Definition run (c : Compensation) : M unit :=
  match c with
  | RemoveStack StackName =>
      Logger_log Namespace.TAG
        ("Removing AWS CloudFormation stack " ++ Js.quoted StackName
         ++ "...") ;;
      _ <- await (cf_deleteStack StackName) ;;
      _ <- await (cf_waitFor_stackDeleteComplete StackName) ;;
      ret tt
  | DeleteNamespace namespaceName =>
      Logger_log Namespace.TAG
        ("Deleting namespace " ++ Js.quoted namespaceName ++ "...") ;;
      _ <- await (k8s_deleteNamespace namespaceName) ;;
      ret tt
  | DeleteRole name kubernetesRoleName namespaceName =>
      Logger_log (name ++ "|K8S")
        ("Deleting namespaced role " ++ Js.quoted kubernetesRoleName
         ++ " for namespace " ++ Js.quoted namespaceName ++ "...") ;;
      _ <- await (k8s_deleteNamespacedRole kubernetesRoleName namespaceName) ;;
      ret tt
  | DeleteRoleBinding name kubernetesRoleBindingName namespaceName =>
      Logger_log (name ++ "|K8S")
        ("Deleting namespaced role binding "
         ++ Js.quoted kubernetesRoleBindingName
         ++ " for namespace " ++ Js.quoted namespaceName ++ "...") ;;
      _ <- await (k8s_deleteNamespacedRoleBinding kubernetesRoleBindingName
                    namespaceName) ;;
      ret tt
  | RemoveMapRole roleArn =>
      n <- await (k8s_readNamespacedConfigMap aws_auth kube_system) ;;
      let roles :=
        filter (fun role => negb (rolearn role =? roleArn)) (mapRoles env n) in
      _ <- await (k8s_replaceNamespacedConfigMap aws_auth kube_system roles) ;;
      ret tt
  end.

(* ================================================================== *)
(** * create-kubernetes-namespace-user.command.ts *)
(* ================================================================== *)

(** The [execute] function of [createKubernetesNamespaceUser]. The
    parameter [roleArn] is not among the names it takes from its
    parameters; the constant [roleArn] of the body is a new one. *)
Definition createKubernetesNamespaceUser (p : User.Params) : M unit :=
  let clusterName := User.clusterName p in
  let namespaceName := User.namespaceName p in
  let suffix := User.suffix p in
  let rbacRules := User.rbacRules p in
  let kubernetesName := namespaceName ++ "-" ++ suffix in
  let name := kubernetesName ++ "-" ++ clusterName in
  let kubernetesGroupName := kubernetesName ++ "-group" in
  let kubernetesRoleName := kubernetesName ++ "-role" in
  let kubernetesRoleBindingName := kubernetesName ++ "-role-binding" in
  let roleArn := name ++ "-k8s-role" in
  Logger_log User.TAG
    ("Creating " ++ suffix ++ " user for namespace " ++ namespaceName
     ++ "...") ;;
  Logger_log (name ++ "|AWS") "Getting AWS Account ID..." ;;
  Logger_log (name ++ "|K8S")
    ("Creating namespaced role " ++ Js.quoted kubernetesRoleName
     ++ " for namespace " ++ Js.quoted namespaceName ++ "...") ;;
  _ <- await (k8s_createNamespacedRole namespaceName kubernetesRoleName
                rbacRules) ;;
  add (DeleteRole name kubernetesRoleName namespaceName) ;;
  Logger_log (name ++ "|K8S")
    ("Creating namespaced role binding " ++ Js.quoted kubernetesRoleBindingName
     ++ " for namespace " ++ Js.quoted namespaceName ++ "...") ;;
  _ <- await (k8s_createNamespacedRoleBinding namespaceName
                kubernetesRoleBindingName kubernetesGroupName
                kubernetesRoleName) ;;
  add (DeleteRoleBinding name kubernetesRoleBindingName namespaceName) ;;
  Logger_log (name ++ "|K8S")
    ("Reading AWS Auth configuration and updating "
     ++ Js.quoted "mapRoles" ++ " property...") ;;
  n <- await (k8s_readNamespacedConfigMap aws_auth kube_system) ;;
  let roles :=
    (mapRoles env n
     ++ [{| groups := [kubernetesGroupName];
            rolearn := roleArn;
            username := kubernetesName |}])%list in
  _ <- await (k8s_replaceNamespacedConfigMap aws_auth kube_system roles) ;;
  add (RemoveMapRole roleArn).

(** Modelled from the spec: [exec] of a built command ([@lpha/core], not
    among the sources). A nested command is given the same revert stack
    and runs its [execute] function on it. *)
Definition createKubernetesNamespaceUser_exec (p : User.Params) : M unit :=
  createKubernetesNamespaceUser p.

(* ================================================================== *)
(** * The create-namespace command *)
(* ================================================================== *)

(** The pattern of the namespace name, [^[a-z][a-z0-9\-]*$] with the
    flag [i]. *)
Definition namespace_pattern : RegExp.anchored :=
  {| RegExp.body :=
       RegExp.Seq (RegExp.Class [("a", "z")]%char)
         (RegExp.Star
            (RegExp.Class [("a", "z"); ("0", "9"); ("-", "-")]%char));
     RegExp.ignoreCase := true |}.

(** [!namespaceName || !namespaceName.match(pattern)] *)
Definition invalid (namespaceName : string) : bool :=
  negb (Js.truthy namespaceName)
  || negb (RegExp.matches namespace_pattern namespaceName).

Definition describeStack (StackName : string) : M Stack :=
  n <- await (cf_describeStacks StackName) ;;
  match Stacks env n with
  | Some [stack] => ret stack
  | _ =>
      throw (Error ("Can not find exactly one stack for name "
                    ++ Js.quoted StackName))
  end.

Definition getStackStatus (StackName : string) : M string :=
  stack <- describeStack StackName ;;
  ret (StackStatus stack).

(** The filter of the entries of the resource properties:
    [key && value && key.toLowerCase().includes('name')]. *)
Definition named (entry : string * JSON.value) : bool :=
  Js.truthy (fst entry) && JSON.truthy (snd entry)
  && Js.includes (Js.toLowerCase (fst entry)) "name".

Definition JSON_parse (text : string) : M JSON.value :=
  match JSON.parse text with
  | Some v => ret v
  | None => throw (SyntaxError text)
  end.

Definition Object_entries (v : JSON.value) : M (list (string * JSON.value)) :=
  match JSON.entries v with
  | Some entries => ret entries
  | None => throw (TypeError "Cannot convert undefined or null to object")
  end.

(** [e.ResourceProperties || '{}'] *)
Definition properties_text (e : StackEvent) : string :=
  match ResourceProperties e with
  | Some text => if Js.truthy text then text else "{}"
  | None => "{}"
  end.

Definition line (e : StackEvent) (resourceName : string) : string :=
  let statusReason :=
    match ResourceStatusReason e with
    | Some reason => if Js.truthy reason then " | " ++ reason else ""
    | None => ""
    end in
  Js.show (ResourceType e) ++ resourceName ++ " | "
  ++ Js.show (ResourceStatus e) ++ statusReason.

(** The body of the [forEach] of the polling loop. *)
Definition publish (e : StackEvent) : M unit :=
  push (EventId e) ;;
  properties <- JSON_parse (properties_text e) ;;
  entries <- Object_entries properties ;;
  let name := hd_error (map snd (filter named entries)) in
  let resourceName :=
    match name with
    | Some v => if JSON.truthy v then "(" ++ JSON.to_string v ++ ")" else ""
    | None => ""
    end in
  fun s =>
    (Ok tt,
     emit (Published e (Namespace.TAG ++ "|CloudFormation")
             (line e resourceName)) s).

(** One round of the loop body up to the [forEach]: the events are sorted,
    those already published are filtered out, and only then is each of the
    remaining ones published. *)
Definition publish_batch (batch : option (list StackEvent)) : M unit :=
  ids <- published ;;
  forEach publish
    (filter (fun e => negb (Js.array_includes ids (EventId e)))
       (sort (match batch with
              | Some events => events
              | None => []
              end))).

(** [while ((await getStackStatus()) === 'CREATE_IN_PROGRESS') { ... }] *)
Fixpoint poll (fuel : nat) (StackName : string) : M unit :=
  status <- getStackStatus StackName ;;
  if status =? "CREATE_IN_PROGRESS" then
    match fuel with
    | O => fun s => (Polling, s)
    | S fuel' =>
        n <- await (cf_describeStackEvents StackName) ;;
        publish_batch (StackEvents env n) ;;
        sleep 1500 ;;
        poll fuel' StackName
    end
  else ret tt.

(** From the check of the name to the end of the polling loop. *)
Definition create_stack (fuel : nat) (p : Namespace.Params) : M string :=
  let namespaceName := Namespace.namespaceName p in
  if invalid namespaceName then
    throw (Error ("Namespace name is invalid: " ++ namespaceName))
  else
    let namespacePath := "./namespaces/" ++ namespaceName in
    _ <- await (makeDir namespacePath) ;;
    let StackName := namespaceName ++ "-namespace" in
    Logger_log Namespace.TAG
      ("Creating AWS CloudFormation Stack " ++ Js.quoted StackName ++ "...") ;;
    _ <- await (cf_createStack StackName namespaceName) ;;
    add (RemoveStack StackName) ;;
    reset_published ;;
    poll fuel StackName ;;
    ret StackName.

Definition collect (outputs : list (string * string)) (o : Output)
  : list (string * string) :=
  match OutputKey o, OutputValue o with
  | Some key, Some value =>
      if Js.truthy key && Js.truthy value then Js.set outputs key value
      else outputs
  | _, _ => outputs
  end.

(** The last read of the stack, the check of its status and the outputs. *)
Definition stack_outputs (StackName : string) : M (list (string * string)) :=
  stack <- describeStack StackName ;;
  if negb (StackStatus stack =? "CREATE_COMPLETE") then
    throw (Error "Unexpected AWS CloudFormation stack creation result.")
  else
    ret (fold_left collect
           (match Outputs stack with
            | Some outputs => outputs
            | None => []
            end) []).

Definition rule (groups resources verbs : list string) : PolicyRule :=
  {| apiGroups := Some groups; nonResourceURLs := None;
     resourceNames := None; resources := Some resources;
     verbs := Some verbs |}.

Definition admin_rules : list PolicyRule :=
  [ rule [""; "extensions"; "apps"; "persistentvolumeclaims";
          "storage.k8s.io"; "autoscaling"] ["*"] ["*"];
    rule ["batch"] ["jobs"; "cronjobs"] ["*"] ].

Definition deployments_rules : list PolicyRule :=
  [ rule ["extensions"; "apps"] ["deployments"] ["*"] ].

(** The namespace and its two users. *)
Definition create_cluster_side (p : Namespace.Params)
  (outputs : list (string * string)) : M unit :=
  let namespaceName := Namespace.namespaceName p in
  let clusterName := Namespace.clusterName p in
  Logger_log Namespace.TAG
    ("Creating namespace " ++ Js.quoted namespaceName ++ "...") ;;
  _ <- await (k8s_createNamespace namespaceName) ;;
  add (DeleteNamespace namespaceName) ;;
  createKubernetesNamespaceUser_exec
    {| User.namespaceName := namespaceName;
       User.clusterName := clusterName;
       User.roleArn := Js.get outputs "AdminKubernetesRole";
       User.suffix := "admin";
       User.rbacRules := admin_rules |} ;;
  createKubernetesNamespaceUser_exec
    {| User.namespaceName := namespaceName;
       User.clusterName := clusterName;
       User.roleArn := Js.get outputs "DeploymentsKubernetesRole";
       User.suffix := "deployments";
       User.rbacRules := deployments_rules |}.

(** The [execute] function of [createNamespace]. *)
Definition createNamespace (fuel : nat) (p : Namespace.Params) : M unit :=
  StackName <- create_stack fuel p ;;
  outputs <- stack_outputs StackName ;;
  create_cluster_side p outputs.

(* ================================================================== *)
(** * The orchestrator *)
(* ================================================================== *)

(** Modelled from the spec: [unwind] of the revert stack ([@lpha/core], not
    among the sources). The sequence is read from the compensation added
    last to the one added first; each is invoked once; a failure is
    reported and the remaining ones are still invoked. *)
Fixpoint unwind_each (cs : list Compensation) : M unit :=
  match cs with
  | [] => ret tt
  | c :: rest =>
      fun s =>
        match run c (emit (Invoked c) s) with
        | (Ok _, s') => unwind_each rest s'
        | (Threw e, s') => unwind_each rest (emit (Reported c e) s')
        | (Polling, s') => (Polling, s')
        end
  end.

(** Modelled from the spec: [unwind] starts from the compensation added
    last; the sequence itself is only read. *)
Definition unwind : M unit :=
  fun s => unwind_each (rev (revertStack s)) s.

(** Modelled from the spec: a forward action, which yields outputs, with
    the producer of its compensation (the pairs given to [runForward]). *)
Record Step : Type := {
  action : M (list (string * string));
  compensation : list (string * string) -> Compensation
}.

(** Modelled from the spec: the forward pass of [runForward]. The actions
    run in order; after each success the compensation bound to the outputs
    of the action is added; at the first failure the pass stops and
    nothing is added for the failed action. *)
Fixpoint forward (actions : list Step) : M unit :=
  match actions with
  | [] => ret tt
  | a :: rest =>
      outputs <- action a ;;
      add (compensation a outputs) ;;
      forward rest
  end.

(** Modelled from the spec: [runForward]. When the forward pass fails the
    stack is unwound, and after the unwind the failure of the forward pass
    is raised again. *)
Definition runForward (actions : list Step) : M unit :=
  fun s =>
    match forward actions s with
    | (Threw e, s') => (Threw e, snd (unwind s'))
    | r => r
    end.

End Program.

(* ================================================================== *)
(** * Scripted environments *)
(* ================================================================== *)

(** An environment given by the list of its answers, call by call; calls
    past the end of the list are fulfilled with nothing to read. *)
Inductive Answer : Type :=
| Fulfilled
| RejectedWith (message : string)
| WithStacks (stacks : list Stack)
| WithEvents (events : list StackEvent)
| WithRoles (roles : list MapRole).

Definition scripted (answers : list Answer) : Env :=
  {| rejects n :=
       match nth_error answers n with
       | Some (RejectedWith message) => Some message
       | _ => None
       end;
     Stacks n :=
       match nth_error answers n with
       | Some (WithStacks stacks) => Some stacks
       | _ => None
       end;
     StackEvents n :=
       match nth_error answers n with
       | Some (WithEvents events) => Some events
       | _ => None
       end;
     mapRoles n :=
       match nth_error answers n with
       | Some (WithRoles roles) => roles
       | _ => []
       end |}.

Definition stack_event (id : string) (timestamp : Z)
  (properties : option string) : StackEvent :=
  {| EventId := id; Timestamp := timestamp;
     ResourceType := Some "AWS::IAM::Role";
     ResourceStatus := Some "CREATE_IN_PROGRESS";
     ResourceStatusReason := None;
     ResourceProperties := properties |}.

Definition stack_in (status : string) (outputs : list (string * string))
  : Stack :=
  {| StackStatus := status;
     Outputs :=
       Some (map (fun kv => {| OutputKey := Some (fst kv);
                               OutputValue := Some (snd kv) |}) outputs) |}.

(* ================================================================== *)
(** * Vocabulary of the statements *)
(* ================================================================== *)

(** A namespace name as the pattern describes it, read without regard to
    case: a letter, then letters, digits and hyphens. *)
Definition letter (c : ascii) : bool := Js.is_lower c || Js.is_upper c.

Definition name_char (c : ascii) : bool :=
  letter c || Js.is_digit c || Ascii.eqb c "-".

Definition well_formed (name : string) : bool :=
  match name with
  | EmptyString => false
  | String c rest => letter c && forallb name_char (list_ascii_of_string rest)
  end.

(** The stack events published so far, oldest first. *)
Fixpoint published_events (tr : list Event) : list StackEvent :=
  match tr with
  | [] => []
  | Published e _ _ :: rest => e :: published_events rest
  | _ :: rest => published_events rest
  end.

Definition published_ids (tr : list Event) : list string :=
  map EventId (published_events tr).

Definition timestamps (tr : list Event) : list Z :=
  map Timestamp (published_events tr).

(** The documents written to the [aws-auth] config map, oldest first. *)
Fixpoint written (tr : list Event) : list (list MapRole) :=
  match tr with
  | [] => []
  | Called (k8s_replaceNamespacedConfigMap _ _ roles) true :: rest =>
      roles :: written rest
  | _ :: rest => written rest
  end.

(** The compensations invoked by an unwind, in the order of invocation. *)
Fixpoint invoked (tr : list Event) : list Compensation :=
  match tr with
  | [] => []
  | Invoked c :: rest => c :: invoked rest
  | _ :: rest => invoked rest
  end.

(** The forward remote effects: the calls that create or change a remote
    resource. ([makeDir] works on the local disk; reads and deletions are
    not forward effects.) *)
Definition is_effect (c : Call) : bool :=
  match c with
  | cf_createStack _ _ => true
  | k8s_createNamespace _ => true
  | k8s_createNamespacedRole _ _ _ => true
  | k8s_createNamespacedRoleBinding _ _ _ _ => true
  | k8s_replaceNamespacedConfigMap _ _ _ => true
  | _ => false
  end.

(** A forward effect and the compensation that undoes it: they name the
    same resource. *)
Definition pairs (c : Call) (k : Compensation) : bool :=
  match c, k with
  | cf_createStack StackName _, RemoveStack StackName' =>
      StackName =? StackName'
  | k8s_createNamespace name, DeleteNamespace name' => name =? name'
  | k8s_createNamespacedRole namespace name _, DeleteRole _ name' namespace' =>
      (name =? name') && (namespace =? namespace')
  | k8s_createNamespacedRoleBinding namespace name _ _,
    DeleteRoleBinding _ name' namespace' =>
      (name =? name') && (namespace =? namespace')
  | k8s_replaceNamespacedConfigMap _ _ roles, RemoveMapRole roleArn =>
      match last (map Some roles) None with
      | Some role => rolearn role =? roleArn
      | None => false
      end
  | _, _ => false
  end.

(** An event that is neither a fulfilled forward effect nor an addition to
    the revert stack. *)
Definition neutral (ev : Event) : bool :=
  match ev with
  | Called c true => negb (is_effect c)
  | Added _ => false
  | _ => true
  end.

(** The revert stack mirrors the fulfilled forward effects of a trace:
    every fulfilled effect is followed at once by the addition of its
    compensation, nothing else is ever added, and the stack holds the
    compensations in the order of the effects. *)
Inductive Mirrored : list Event -> list Compensation -> Prop :=
| Mirrored_nil : Mirrored [] []
| Mirrored_neutral tr stack ev :
    Mirrored tr stack -> neutral ev = true ->
    Mirrored (tr ++ [ev]) stack
| Mirrored_effect tr stack c k :
    Mirrored tr stack -> is_effect c = true -> pairs c k = true ->
    Mirrored (tr ++ [Called c true; Added k]) (stack ++ [k]).

(** The fulfilled forward effects of a trace, and the compensations added
    in it. *)
Fixpoint effects (tr : list Event) : list Call :=
  match tr with
  | [] => []
  | Called c true :: rest =>
      if is_effect c then c :: effects rest else effects rest
  | _ :: rest => effects rest
  end.

Fixpoint additions (tr : list Event) : list Compensation :=
  match tr with
  | [] => []
  | Added k :: rest => k :: additions rest
  | _ :: rest => additions rest
  end.

(** Non-decreasing timestamps. *)
Definition in_time_order (events : list StackEvent) : Prop :=
  StronglySorted (fun a b => (Timestamp a <= Timestamp b)%Z) events.

(** The state left by a run. *)
Definition final {A : Type} (r : Result A * State) : State := snd r.

(** An action that leaves the revert stack to the orchestrator. *)
Definition leaves_stack {A : Type} (m : M A) : Prop :=
  forall s, revertStack (final (m s)) = revertStack s.

(** A program respects a relation on states when every run, whatever its
    outcome, leaves a state related to the one it started from. *)
Definition respects (R : State -> State -> Prop) {A : Type} (m : M A) : Prop :=
  forall s, R s (final (m s)).

(** The run only appends to the trace, and what it appends satisfies [P]. *)
Definition appends (P : list Event -> Prop) (s s' : State) : Prop :=
  exists tr, trace s' = (trace s ++ tr)%list /\ P tr.

(** The run keeps an invariant of the state. *)
Definition keeps (I : State -> Prop) (s s' : State) : Prop := I s -> I s'.

(** Every event of a stretch of trace is of an allowed kind. *)
Definition only (allowed : Event -> bool) (tr : list Event) : Prop :=
  forallb allowed tr = true.

Definition not_published (ev : Event) : bool :=
  match ev with
  | Published _ _ _ => false
  | _ => true
  end.

Definition not_invoked (ev : Event) : bool :=
  match ev with
  | Invoked _ => false
  | _ => true
  end.

Definition any_event (ev : Event) : bool := true.

(** The events of straight-line code: calls, log lines, sleeps and
    additions to the revert stack. *)
Definition plain (ev : Event) : bool :=
  match ev with
  | Called _ _ | Slept _ | Logged _ _ | Added _ => true
  | _ => false
  end.

(** The invariant of the array of published ids: it has no id twice, and
    it holds the id of every event published so far, none of them
    published twice. *)
Definition deduplicated (s : State) : Prop :=
  NoDup (publishedEventIds s)
  /\ incl (published_ids (trace s)) (publishedEventIds s)
  /\ NoDup (published_ids (trace s)).

(** The revert stack of a state mirrors its trace. *)
Definition mirrored (s : State) : Prop := Mirrored (trace s) (revertStack s).

(** The batches of an environment never list an event id twice. *)
Definition distinct_batches (env : Env) : Prop :=
  forall n events, StackEvents env n = Some events ->
                   NoDup (map EventId events).

(* ================================================================== *)
(** * Scenarios *)
(* ================================================================== *)

Definition team_a : Namespace.Params :=
  {| Namespace.clusterName := "c1"; Namespace.namespaceName := "team-a" |}.

Definition role_outputs : list (string * string) :=
  [("AdminKubernetesRole", "arn:admin");
   ("DeploymentsKubernetesRole", "arn:deploy")].

(** Two polls: the first returns the event [a] of time 10, the second
    returns [a] again and the older event [b] of time 5. *)
Definition late_event : Env :=
  scripted
    [ Fulfilled; Fulfilled;
      WithStacks [stack_in "CREATE_IN_PROGRESS" []];
      WithEvents [stack_event "a" 10 None];
      WithStacks [stack_in "CREATE_IN_PROGRESS" []];
      WithEvents [stack_event "b" 5 None; stack_event "a" 10 None];
      WithStacks [stack_in "CREATE_COMPLETE" role_outputs];
      WithStacks [stack_in "CREATE_COMPLETE" role_outputs] ].

(** One poll whose batch lists the event id [a] twice. *)
Definition repeated_id : Env :=
  scripted
    [ Fulfilled; Fulfilled;
      WithStacks [stack_in "CREATE_IN_PROGRESS" []];
      WithEvents [stack_event "a" 10 None; stack_event "a" 20 None];
      WithStacks [stack_in "CREATE_COMPLETE" role_outputs];
      WithStacks [stack_in "CREATE_COMPLETE" role_outputs] ].

(** The second poll returns an event whose properties are the text [{]. *)
Definition broken_properties : Env :=
  scripted
    [ Fulfilled; Fulfilled;
      WithStacks [stack_in "CREATE_IN_PROGRESS" []];
      WithEvents [stack_event "a" 10 None];
      WithStacks [stack_in "CREATE_IN_PROGRESS" []];
      WithEvents [stack_event "b" 20 (Some "{"); stack_event "a" 10 None];
      WithStacks [stack_in "CREATE_COMPLETE" role_outputs];
      WithStacks [stack_in "CREATE_COMPLETE" role_outputs] ].

(** The stack is found rolled back at the first read. *)
Definition rolled_back : Env :=
  scripted
    [ Fulfilled; Fulfilled;
      WithStacks [stack_in "ROLLBACK_COMPLETE" role_outputs];
      WithStacks [stack_in "ROLLBACK_COMPLETE" role_outputs] ].

Definition entry (arn : string) : MapRole :=
  {| groups := [arn ++ "-group"]; rolearn := arn; username := arn |}.

Definition converged : Env :=
  scripted
    [ Fulfilled; Fulfilled;
      WithStacks [stack_in "CREATE_COMPLETE" role_outputs];
      WithStacks [stack_in "CREATE_COMPLETE" role_outputs];
      Fulfilled; Fulfilled; Fulfilled; WithRoles []; Fulfilled;
      Fulfilled; Fulfilled;
      WithRoles [ {| groups := ["team-a-admin-group"];
                     rolearn := "team-a-admin-c1-k8s-role";
                     username := "team-a-admin" |} ] ].

(** The stack converges; the role binding of the second user is
    rejected. *)
Definition binding_refused : Env :=
  scripted
    [ Fulfilled; Fulfilled;
      WithStacks [stack_in "CREATE_COMPLETE" role_outputs];
      WithStacks [stack_in "CREATE_COMPLETE" role_outputs];
      Fulfilled; Fulfilled; Fulfilled; WithRoles []; Fulfilled;
      Fulfilled; RejectedWith "binding refused" ].

(** A namespace, then a role, then a role binding that is rejected. *)
Definition third_call_rejected : Env :=
  scripted [Fulfilled; Fulfilled; RejectedWith "binding refused"].

Definition calling (env : Env) (c : Call) (k : Compensation) : Step :=
  {| action := (_ <- await env c ;; ret []);
     compensation := fun _ => k |}.

Definition namespace_step : Step :=
  calling third_call_rejected (k8s_createNamespace "team-a")
    (DeleteNamespace "team-a").

Definition role_step : Step :=
  calling third_call_rejected
    (k8s_createNamespacedRole "team-a" "team-a-admin-role" [])
    (DeleteRole "team-a-admin-c1" "team-a-admin-role" "team-a").

Definition binding_step : Step :=
  calling third_call_rejected
    (k8s_createNamespacedRoleBinding "team-a" "team-a-admin-role-binding"
       "team-a-admin-group" "team-a-admin-role")
    (DeleteRoleBinding "team-a-admin-c1" "team-a-admin-role-binding" "team-a").

(* ================================================================== *)
(** * Proofs *)
(* ================================================================== *)

(** ** Programs and relations on states *)

Section Respects.

Variable R : State -> State -> Prop.
Context {R_preorder : PreOrder R}.

Lemma respects_ret {A} (a : A) : respects R (ret a).
Proof. intros s. reflexivity. Qed.

Lemma respects_throw {A} e : respects R (@throw A e).
Proof. intros s. reflexivity. Qed.

Lemma respects_polling {A} : respects R (fun s => (@Polling A, s)).
Proof. intros s. reflexivity. Qed.

Lemma respects_bind {A B} (m : M A) (k : A -> M B) :
  respects R m -> (forall a, respects R (k a)) -> respects R (bind m k).
Proof.
  intros Hm Hk s. specialize (Hm s). unfold bind, final in *.
  destruct (m s) as [[a|e|] s1]; cbn in *; auto.
  etransitivity; [exact Hm | apply Hk].
Qed.

Lemma respects_forEach {A} (body : A -> M unit) items :
  (forall x, In x items -> respects R (body x)) ->
  respects R (forEach body items).
Proof.
  induction items as [|x rest IH]; intros H; cbn [forEach].
  - apply respects_ret.
  - apply respects_bind; [apply H; left; reflexivity|].
    intros _. apply IH. intros y Hy. apply H. right. exact Hy.
Qed.

(** An effect, its compensation, and what follows. *)
Lemma respects_effect {A B} (m : M A) (k : M unit) (rest : M B) :
  respects R (m ;; k) -> respects R rest -> respects R (m ;; k ;; rest).
Proof.
  intros Hmk Hrest s. specialize (Hmk s). unfold bind, final in *.
  destruct (m s) as [[a|e|] s1]; cbn in *; auto.
  destruct (k s1) as [[[]|e|] s2]; cbn in *; auto.
  etransitivity; [exact Hmk | apply Hrest].
Qed.

Section Traversal.

Variable env : Env.

Hypothesis R_call :
  forall c, is_effect c = false -> respects R (await env c).
Hypothesis R_effect :
  forall c k, pairs c k = true -> respects R (await env c ;; add k).
Hypothesis R_log : forall tag message, respects R (Logger_log tag message).
Hypothesis R_sleep : forall ms, respects R (sleep ms).
Hypothesis R_reset : respects R reset_published.
Hypothesis R_batch : forall n, respects R (publish_batch (StackEvents env n)).

Lemma respects_describeStack StackName :
  respects R (describeStack env StackName).
Proof.
  unfold describeStack. apply respects_bind; [apply R_call; reflexivity|].
  intros n. destruct (Stacks env n) as [[|stack [|]]|];
    (apply respects_ret || apply respects_throw).
Qed.

Lemma respects_getStackStatus StackName :
  respects R (getStackStatus env StackName).
Proof.
  unfold getStackStatus. apply respects_bind.
  - apply respects_describeStack.
  - intros. apply respects_ret.
Qed.

Lemma respects_poll fuel StackName : respects R (poll env fuel StackName).
Proof.
  induction fuel as [|fuel IH]; cbn [poll];
    (apply respects_bind; [apply respects_getStackStatus|]);
    intros status; destruct (status =? "CREATE_IN_PROGRESS");
    try apply respects_ret; try apply respects_polling.
  apply respects_bind; [apply R_call; reflexivity|]. intros n.
  apply respects_bind; [apply R_batch|]. intros _.
  apply respects_bind; [apply R_sleep|]. intros _. exact IH.
Qed.

Lemma respects_stack_outputs StackName :
  respects R (stack_outputs env StackName).
Proof.
  unfold stack_outputs. apply respects_bind; [apply respects_describeStack|].
  intros stack. destruct (negb _); [apply respects_throw | apply respects_ret].
Qed.

Lemma last_appended {A} (l : list A) (x : A) :
  last (map Some (l ++ [x])) None = Some x.
Proof.
  induction l as [|y l IH]; [reflexivity|].
  cbn [app map]. cbn [app map] in IH.
  destruct (map Some (l ++ [x])) eqn:E.
  - destruct l; discriminate.
  - cbn [last]. exact IH.
Qed.

Lemma respects_createKubernetesNamespaceUser p :
  respects R (createKubernetesNamespaceUser env p).
Proof.
  unfold createKubernetesNamespaceUser.
  do 3 (apply respects_bind; [apply R_log | intros _]).
  apply respects_effect.
  { apply R_effect. cbn [pairs]. now rewrite !String.eqb_refl. }
  apply respects_bind; [apply R_log | intros _].
  apply respects_effect.
  { apply R_effect. cbn [pairs]. now rewrite !String.eqb_refl. }
  apply respects_bind; [apply R_log | intros _].
  apply respects_bind; [apply R_call; reflexivity | intros n].
  apply R_effect. cbn [pairs]. rewrite last_appended. cbn [rolearn].
  apply String.eqb_refl.
Qed.

Lemma respects_create_cluster_side p outputs :
  respects R (create_cluster_side env p outputs).
Proof.
  unfold create_cluster_side, createKubernetesNamespaceUser_exec.
  apply respects_bind; [apply R_log | intros _].
  apply respects_effect.
  { apply R_effect. cbn [pairs]. apply String.eqb_refl. }
  apply respects_bind; [apply respects_createKubernetesNamespaceUser|].
  intros _. apply respects_createKubernetesNamespaceUser.
Qed.

Lemma respects_create_stack fuel p : respects R (create_stack env fuel p).
Proof.
  unfold create_stack. destruct (invalid _); [apply respects_throw|].
  apply respects_bind; [apply R_call; reflexivity | intros _].
  apply respects_bind; [apply R_log | intros _].
  apply respects_effect.
  { apply R_effect. cbn [pairs]. apply String.eqb_refl. }
  apply respects_bind; [apply R_reset | intros _].
  apply respects_bind; [apply respects_poll | intros _].
  apply respects_ret.
Qed.

Lemma respects_createNamespace fuel p :
  respects R (createNamespace env fuel p).
Proof.
  unfold createNamespace.
  apply respects_bind; [apply respects_create_stack | intros StackName].
  apply respects_bind; [apply respects_stack_outputs | intros outputs].
  apply respects_create_cluster_side.
Qed.

End Traversal.

(** The body of the polling loop, when pushing an id and publishing an
    event respect the relation one by one. *)
Section Publishing.

Hypothesis R_push : forall id, respects R (push id).
Hypothesis R_published :
  forall e tag message,
    respects R (fun s => (Ok tt, emit (Published e tag message) s)).

Lemma respects_publish e : respects R (publish e).
Proof.
  unfold publish. apply respects_bind; [apply R_push | intros _].
  apply respects_bind.
  { unfold JSON_parse. destruct (JSON.parse _);
      [apply respects_ret | apply respects_throw]. }
  intros properties. apply respects_bind.
  { unfold Object_entries. destruct (JSON.entries _);
      [apply respects_ret | apply respects_throw]. }
  intros entries. apply R_published.
Qed.

Lemma respects_publish_batch batch : respects R (publish_batch batch).
Proof.
  unfold publish_batch. apply respects_bind.
  - intros s. reflexivity.
  - intros ids. apply respects_forEach. intros e _. apply respects_publish.
Qed.

End Publishing.

End Respects.

(** ** Traces *)

Lemma published_events_app tr1 tr2 :
  published_events (tr1 ++ tr2)
  = (published_events tr1 ++ published_events tr2)%list.
Proof.
  induction tr1 as [|ev tr1 IH]; [reflexivity|].
  destruct ev; cbn [app published_events]; rewrite IH; reflexivity.
Qed.

Lemma invoked_app tr1 tr2 :
  invoked (tr1 ++ tr2) = (invoked tr1 ++ invoked tr2)%list.
Proof.
  induction tr1 as [|ev tr1 IH]; [reflexivity|].
  destruct ev; cbn [app invoked]; rewrite IH; reflexivity.
Qed.

Lemma additions_app tr1 tr2 :
  additions (tr1 ++ tr2) = (additions tr1 ++ additions tr2)%list.
Proof.
  induction tr1 as [|ev tr1 IH]; [reflexivity|].
  destruct ev; cbn [app additions]; rewrite IH; reflexivity.
Qed.

Lemma effects_app tr1 tr2 :
  effects (tr1 ++ tr2) = (effects tr1 ++ effects tr2)%list.
Proof.
  induction tr1 as [|ev tr1 IH]; [reflexivity|].
  destruct ev as [c [|]| | | | | |]; cbn [app effects]; rewrite IH;
    try reflexivity.
  destruct (is_effect c); reflexivity.
Qed.

#[export] Instance keeps_PreOrder (I : State -> Prop) : PreOrder (keeps I).
Proof. split; unfold keeps; [intros s H; exact H | intros s1 s2 s3; auto]. Qed.

Lemma only_app allowed tr1 tr2 :
  only allowed tr1 -> only allowed tr2 -> only allowed (tr1 ++ tr2)%list.
Proof. unfold only. intros H1 H2. now rewrite forallb_app, H1, H2. Qed.

Lemma only_not_published tr : only not_published tr -> published_events tr = [].
Proof.
  unfold only. induction tr as [|ev tr IH]; [reflexivity|].
  cbn [forallb]. intros H. apply andb_prop in H. destruct H as [H1 H2].
  destruct ev; cbn in *; try discriminate; auto.
Qed.

Lemma only_not_invoked tr : only not_invoked tr -> invoked tr = [].
Proof.
  unfold only. induction tr as [|ev tr IH]; [reflexivity|].
  cbn [forallb]. intros H. apply andb_prop in H. destruct H as [H1 H2].
  destruct ev; cbn in *; try discriminate; auto.
Qed.

#[export] Instance appends_PreOrder allowed :
  PreOrder (appends (only allowed)).
Proof.
  split.
  - intros s. exists []. now rewrite app_nil_r.
  - intros s1 s2 s3 [tr1 [E1 P1]] [tr2 [E2 P2]].
    exists (tr1 ++ tr2)%list. split; [|now apply only_app].
    now rewrite E2, E1, app_assoc.
Qed.

(** Programs that only append events of an allowed kind. *)
Section Appends.

Variable env : Env.
Variable allowed : Event -> bool.

Let R := appends (only allowed).

Lemma only_emit ev (f : State -> State) :
  allowed ev = true -> (forall s, trace (f s) = trace s) ->
  respects R (fun s => (Ok tt, emit ev (f s))).
Proof.
  intros Ha Ht s. exists [ev]. cbn. rewrite Ht. split; [reflexivity|].
  unfold only. cbn. now rewrite Ha.
Qed.

Lemma only_call c :
  (forall fulfilled, allowed (Called c fulfilled) = true) ->
  respects R (await env c).
Proof.
  intros Ha s. unfold await, final.
  destruct (rejects env (awaited s)); cbn;
    (eexists [_]; split; [reflexivity|]); unfold only; cbn; now rewrite Ha.
Qed.

Lemma only_effect c k :
  (forall fulfilled, allowed (Called c fulfilled) = true) ->
  allowed (Added k) = true ->
  respects R (await env c ;; add k).
Proof.
  intros Hc Hk. apply respects_bind; [exact _ | now apply only_call |].
  intros _. apply (only_emit (Added k) (register k)); auto.
Qed.

End Appends.

(** ** The revert stack mirrors the forward effects *)

Lemma pairs_effect c k : pairs c k = true -> is_effect c = true.
Proof. destruct c, k; cbn; congruence. Qed.

Lemma Mirrored_additions tr stack :
  Mirrored tr stack ->
  additions tr = stack
  /\ Forall2 (fun c k => pairs c k = true) (effects tr) stack.
Proof.
  induction 1 as [|tr stack ev _ [IHa IHe] Hn|tr stack c k _ [IHa IHe] He Hp].
  - split; [reflexivity | constructor].
  - rewrite additions_app, effects_app, IHa. split.
    + destruct ev; cbn in *; try discriminate; now rewrite app_nil_r.
    + destruct ev as [c [|]| | | | | |]; cbn in *; try discriminate;
        rewrite ?app_nil_r; auto.
      destruct (is_effect c); [discriminate|]. now rewrite app_nil_r.
  - rewrite additions_app, effects_app, IHa. cbn. rewrite He. split.
    + reflexivity.
    + apply Forall2_app; [exact IHe|]. constructor; [exact Hp | constructor].
Qed.

Section Mirror.

Variable env : Env.

Lemma mirrored_call c :
  is_effect c = false -> respects (keeps mirrored) (await env c).
Proof.
  intros Hc s Hs. unfold await, final, mirrored in *.
  destruct (rejects env (awaited s)); cbn;
    apply Mirrored_neutral; auto; cbn; now rewrite ?Hc.
Qed.

Lemma mirrored_effect c k :
  pairs c k = true -> respects (keeps mirrored) (await env c ;; add k).
Proof.
  intros Hp s Hs. unfold bind, await, add, final, mirrored in *.
  destruct (rejects env (awaited s)); cbn.
  - apply Mirrored_neutral; auto.
  - rewrite <- app_assoc. cbn [app].
    apply Mirrored_effect; auto. eapply pairs_effect; eauto.
Qed.

Lemma mirrored_emit ev (f : State -> State) :
  neutral ev = true ->
  (forall s, revertStack (f s) = revertStack s) ->
  (forall s, trace (f s) = trace s) ->
  respects (keeps mirrored) (fun s => (Ok tt, emit ev (f s))).
Proof.
  intros Hn Hr Ht s Hs. unfold final, mirrored in *. cbn.
  rewrite Hr, Ht. now apply Mirrored_neutral.
Qed.

Lemma mirrored_createNamespace fuel p :
  respects (keeps mirrored) (createNamespace env fuel p).
Proof.
  apply respects_createNamespace.
  - exact _.
  - apply mirrored_call.
  - apply mirrored_effect.
  - intros tag message. apply (mirrored_emit _ (fun s => s)); auto.
  - intros ms. apply (mirrored_emit _ (fun s => s)); auto.
  - intros s Hs. exact Hs.
  - intros n. apply respects_publish_batch.
    + exact _.
    + intros id s Hs. exact Hs.
    + intros e tag message. apply (mirrored_emit _ (fun s => s)); auto.
Qed.

End Mirror.

(** C6. Throughout the forward pass of [createNamespace], with its two
    nested [createKubernetesNamespaceUser] runs, whatever the environment
    answers and wherever the run stops: a compensation is added only right
    after its paired forward remote effect was fulfilled, every fulfilled
    forward remote effect is followed at once by the addition of its
    compensation, and the revert stack holds exactly these compensations,
    in the order of the effects. *)
Theorem revert_stack_mirrors_forward_effects env fuel p :
  let s := final (createNamespace env fuel p initial) in
  Mirrored (trace s) (revertStack s)
  /\ additions (trace s) = revertStack s
  /\ Forall2 (fun c k => pairs c k = true) (effects (trace s)) (revertStack s).
Proof.
  intros s.
  assert (H : Mirrored (trace s) (revertStack s)).
  { apply (mirrored_createNamespace env fuel p initial). constructor. }
  split; [exact H | apply Mirrored_additions, H].
Qed.

(** The role binding of the second user is refused: the stack then holds
    the compensations of the six effects before it, oldest first. *)
Example second_binding_refused :
  let r := createNamespace binding_refused 5 team_a initial in
  fst r = Threw (Rejected "binding refused")
  /\ revertStack (final r)
     = [ RemoveStack "team-a-namespace";
         DeleteNamespace "team-a";
         DeleteRole "team-a-admin-c1" "team-a-admin-role" "team-a";
         DeleteRoleBinding "team-a-admin-c1" "team-a-admin-role-binding"
           "team-a";
         RemoveMapRole "team-a-admin-c1-k8s-role";
         DeleteRole "team-a-deployments-c1" "team-a-deployments-role"
           "team-a" ].
Proof. vm_compute. split; reflexivity. Qed.

(** ** The polling loop *)

Lemma array_includes_In ids id : Js.array_includes ids id = true <-> In id ids.
Proof.
  unfold Js.array_includes. rewrite existsb_exists. split.
  - intros [x [Hx E]]. apply String.eqb_eq in E. now subst.
  - intros H. exists id. split; [exact H | apply String.eqb_refl].
Qed.

Lemma insert_permutation e l : Permutation (insert e l) (e :: l).
Proof.
  induction l as [|x l IH]; cbn [insert]; [reflexivity|].
  destruct (Timestamp e <=? Timestamp x)%Z; [reflexivity|].
  rewrite IH. apply perm_swap.
Qed.

Lemma sort_permutation l : Permutation (sort l) l.
Proof.
  induction l as [|e l IH]; cbn; [constructor|].
  rewrite insert_permutation. now constructor.
Qed.

Lemma insert_in_time_order e l :
  in_time_order l -> in_time_order (insert e l).
Proof.
  unfold in_time_order. induction 1 as [|x l Hl IH Hx]; cbn [insert].
  - repeat constructor.
  - destruct (Z.leb_spec (Timestamp e) (Timestamp x)) as [Hle|Hgt].
    + constructor; [now constructor|]. constructor; [exact Hle|].
      eapply Forall_impl; [|exact Hx]. cbn. intros; lia.
    + constructor; [exact IH|].
      rewrite Forall_forall in *. intros y Hy.
      apply (Permutation_in _ (insert_permutation e l)) in Hy.
      destruct Hy as [<-|Hy]; [lia | now apply Hx].
Qed.

Lemma sort_in_time_order l : in_time_order (sort l).
Proof.
  induction l as [|e l IH]; cbn; [constructor|].
  now apply insert_in_time_order.
Qed.

Lemma filter_in_time_order f l :
  in_time_order l -> in_time_order (filter f l).
Proof.
  unfold in_time_order. induction 1 as [|x l Hl IH Hx]; cbn; [constructor|].
  destruct (f x); [|exact IH]. constructor; [exact IH|].
  rewrite Forall_forall in *. intros y Hy. apply Hx.
  now apply filter_In in Hy.
Qed.

Lemma firstn_in_time_order k l :
  in_time_order l -> in_time_order (firstn k l).
Proof.
  unfold in_time_order. intros H. revert k.
  induction H as [|x l Hl IH Hx]; intros [|k]; cbn; try constructor.
  - apply IH.
  - rewrite Forall_forall in *. intros y Hy. apply Hx.
    rewrite <- (firstn_skipn k l). apply in_or_app. now left.
Qed.

(** One event of a batch: its id is pushed first; then either the
    properties cannot be read and the error is thrown, or the event is
    published. *)
Lemma publish_cases e s :
  let s1 := set_published (publishedEventIds s ++ [EventId e])%list s in
  (exists err, publish e s = (Threw err, s1))
  \/ (exists tag message,
        publish e s = (Ok tt, emit (Published e tag message) s1)).
Proof.
  unfold publish, bind, push, JSON_parse, Object_entries, ret, throw.
  destruct (JSON.parse _) as [v|]; [|left; eauto].
  destruct (JSON.entries v); [right; eauto | left; eauto].
Qed.

Lemma forEach_publish_prefix l s :
  exists k,
    published_events (trace (final (forEach publish l s)))
    = (published_events (trace s) ++ firstn k l)%list.
Proof.
  revert s. induction l as [|e l IH]; intros s.
  - exists 0. cbn. now rewrite app_nil_r.
  - cbn [forEach]. unfold bind.
    destruct (publish_cases e s) as [[err E]|[tag [message E]]]; rewrite E.
    + exists 0. cbn. now rewrite app_nil_r.
    + destruct (IH (emit (Published e tag message)
                      (set_published (publishedEventIds s ++ [EventId e]) s)))
        as [k Hk].
      exists (S k). rewrite Hk. cbn.
      rewrite published_events_app. cbn. now rewrite <- app_assoc.
Qed.

Lemma forEach_publish_deduplicated l s :
  NoDup (publishedEventIds s ++ map EventId l) ->
  deduplicated s -> deduplicated (final (forEach publish l s)).
Proof.
  revert s. induction l as [|e l IH]; intros s Hnd Hs; [exact Hs|].
  cbn [forEach]. unfold bind.
  assert (Hids : NoDup (publishedEventIds s ++ [EventId e])).
  { cbn [map] in Hnd.
    replace (publishedEventIds s ++ EventId e :: map EventId l)%list
      with ((publishedEventIds s ++ [EventId e]) ++ map EventId l)%list in Hnd
      by now rewrite <- app_assoc.
    eapply NoDup_app_remove_r; eauto. }
  destruct Hs as [H1 [H2 H3]].
  destruct (publish_cases e s) as [[err E]|[tag [message E]]]; rewrite E.
  - cbn. repeat split; cbn; auto. now apply incl_appl.
  - apply IH.
    + cbn. rewrite <- app_assoc. exact Hnd.
    + unfold deduplicated, published_ids. cbn.
      rewrite published_events_app, map_app. cbn.
      repeat split; auto.
      * apply incl_app; [now apply incl_appl | apply incl_appr, incl_refl].
      * apply NoDup_app; auto.
        -- repeat constructor. intros [].
        -- intros a Ha [<-|[]]. apply H2 in Ha.
           apply NoDup_remove_2 in Hids. rewrite app_nil_r in Hids.
           contradiction.
Qed.

Lemma filter_NoDup_map {A B} (f : A -> B) p l :
  NoDup (map f l) -> NoDup (map f (filter p l)).
Proof.
  induction l as [|x l IH]; cbn; [auto|]. intros H.
  inversion H as [|? ? Hx Hl]; subst. destruct (p x); cbn; auto.
  constructor; auto. intros Hin. apply Hx.
  apply in_map_iff in Hin. destruct Hin as [y [E Hy]].
  apply filter_In in Hy. apply in_map_iff. exists y. tauto.
Qed.

Lemma publish_batch_deduplicated events :
  NoDup (map EventId events) ->
  respects (keeps deduplicated) (publish_batch (Some events)).
Proof.
  intros Hnd s Hs. unfold publish_batch, bind, published.
  apply forEach_publish_deduplicated; [|exact Hs].
  apply NoDup_app.
  - apply Hs.
  - apply filter_NoDup_map.
    eapply Permutation_NoDup; [|exact Hnd].
    apply Permutation_map. symmetry. apply sort_permutation.
  - intros id Hid Hin. apply in_map_iff in Hin.
    destruct Hin as [e [E He]]. apply filter_In in He. destruct He as [_ He].
    apply negb_true_iff in He. subst id.
    apply array_includes_In in Hid. congruence.
Qed.

Lemma deduplicated_emit ev (f : State -> State) :
  not_published ev = true ->
  (forall s, publishedEventIds (f s) = publishedEventIds s) ->
  (forall s, trace (f s) = trace s) ->
  forall s, deduplicated s -> deduplicated (emit ev (f s)).
Proof.
  intros Hev Hp Ht s. unfold deduplicated, published_ids. cbn.
  rewrite Hp, Ht, published_events_app.
  destruct ev; try discriminate; cbn; now rewrite app_nil_r.
Qed.

Lemma poll_deduplicated env fuel StackName :
  distinct_batches env ->
  respects (keeps deduplicated) (poll env fuel StackName).
Proof.
  intros Henv. apply respects_poll.
  - exact _.
  - intros c _ s Hs. unfold await, final.
    destruct (rejects env (awaited s)); cbn;
      now apply (deduplicated_emit _ tick).
  - intros ms s Hs. now apply (deduplicated_emit _ (fun s => s)).
  - intros n. destruct (StackEvents env n) as [events|] eqn:E.
    + apply publish_batch_deduplicated. eapply Henv; eauto.
    + intros s Hs. exact Hs.
Qed.

(** ** Runs and their final states *)

Lemma final_bind {A B} (m : M A) (k : A -> M B) s :
  final (bind m k s) = final (m s)
  \/ exists a, final (bind m k s) = final (k a (final (m s))).
Proof.
  unfold bind, final. destruct (m s) as [[a|e|] s1]; cbn; eauto.
Qed.

Lemma final_bind_ret {A B} (m : M A) (b : B) s :
  final (bind m (fun _ => ret b) s) = final (m s).
Proof. unfold bind, final. destruct (m s) as [[a|e|] s1]; reflexivity. Qed.

Lemma bind_assoc {A B C} (m : M A) (f : A -> M B) (g : B -> M C) s :
  bind (bind m f) g s = bind m (fun a => bind (f a) g) s.
Proof. unfold bind. destruct (m s) as [[a|e|] s1]; reflexivity. Qed.

Lemma plain_not_published ev : plain ev = true -> not_published ev = true.
Proof. destruct ev; cbn; congruence. Qed.

Lemma plain_not_invoked ev : plain ev = true -> not_invoked ev = true.
Proof. destruct ev; cbn; congruence. Qed.

(** What the parts of the commands append to the trace. *)
Section Quiet.

Variable env : Env.
Variable allowed : Event -> bool.
Hypothesis allows : forall ev, plain ev = true -> allowed ev = true.

Let R := appends (only allowed).

Lemma only_stack_outputs StackName : respects R (stack_outputs env StackName).
Proof.
  apply respects_stack_outputs; [exact _|].
  intros c _. apply only_call. intros. now apply allows.
Qed.

Lemma only_create_cluster_side p outputs :
  respects R (create_cluster_side env p outputs).
Proof.
  apply respects_create_cluster_side.
  - exact _.
  - intros c _. apply only_call. intros. now apply allows.
  - intros c k _. apply only_effect; intros; now apply allows.
  - intros tag message. apply only_emit with (f := fun s => s); auto.
Qed.

Lemma only_run c : respects R (run env c).
Proof.
  assert (Hcall : forall c, respects R (await env c)).
  { intros c'. apply only_call. intros. now apply allows. }
  assert (Hlog : forall tag message, respects R (Logger_log tag message)).
  { intros. apply only_emit with (f := fun s => s); auto. }
  destruct c; cbn [run];
    repeat (apply respects_bind; [exact _ | auto | intros ?]);
    apply respects_ret; exact _.
Qed.

Hypothesis allows_published :
  forall e tag message, allowed (Published e tag message) = true.

Lemma only_poll fuel StackName : respects R (poll env fuel StackName).
Proof.
  apply respects_poll.
  - exact _.
  - intros c _. apply only_call. intros. now apply allows.
  - intros ms. apply only_emit with (f := fun s => s); auto.
  - intros n. apply respects_publish_batch.
    + exact _.
    + intros id s. exists []. now rewrite app_nil_r.
    + intros e tag message. apply only_emit with (f := fun s => s); auto.
Qed.

Lemma only_createNamespace fuel p : respects R (createNamespace env fuel p).
Proof.
  apply respects_createNamespace.
  - exact _.
  - intros c _. apply only_call. intros. now apply allows.
  - intros c k _. apply only_effect; intros; now apply allows.
  - intros tag message. apply only_emit with (f := fun s => s); auto.
  - intros ms. apply only_emit with (f := fun s => s); auto.
  - intros s. exists []. now rewrite app_nil_r.
  - intros n. apply respects_publish_batch.
    + exact _.
    + intros id s. exists []. now rewrite app_nil_r.
    + intros e tag message. apply only_emit with (f := fun s => s); auto.
Qed.

End Quiet.
Ltac each_char c :=
  destruct c as [[] [] [] [] [] [] [] []]; vm_compute; reflexivity.

Lemma first_class c :
  RegExp.in_class true [("a", "z")]%char c = letter c.
Proof. each_char c. Qed.

Lemma rest_class c :
  RegExp.in_class true [("a", "z"); ("0", "9"); ("-", "-")]%char c
  = name_char c.
Proof. each_char c. Qed.

Lemma never_matches i s : RegExp.matches_rest i RegExp.Never s = false.
Proof. induction s as [|c s IH]; simpl; auto. Qed.

Lemma star_matches s :
  RegExp.matches_rest true
    (RegExp.Star (RegExp.Class [("a", "z"); ("0", "9"); ("-", "-")]%char)) s
  = forallb name_char (list_ascii_of_string s).
Proof.
  induction s as [|c s IH]; [reflexivity|].
  cbn [RegExp.matches_rest RegExp.deriv list_ascii_of_string forallb].
  rewrite rest_class. destruct (name_char c); cbn [RegExp.seq' andb].
  - exact IH.
  - apply never_matches.
Qed.

Lemma pattern_well_formed name :
  RegExp.matches namespace_pattern name = well_formed name.
Proof.
  destruct name as [|c rest]; [reflexivity|].
  unfold RegExp.matches, namespace_pattern, well_formed.
  cbn [RegExp.body RegExp.ignoreCase RegExp.matches_rest RegExp.deriv
       RegExp.nullable].
  rewrite first_class. destruct (letter c); cbn [RegExp.seq' RegExp.alt' andb].
  - apply star_matches.
  - apply never_matches.
Qed.

Lemma invalid_well_formed name : invalid name = negb (well_formed name).
Proof.
  unfold invalid. rewrite pattern_well_formed.
  destruct name; reflexivity.
Qed.

(** ** One run publishes an event id once *)

Lemma deduplicated_create_stack env fuel p :
  distinct_batches env ->
  deduplicated (final (create_stack env fuel p initial)).
Proof.
  intros Henv. unfold create_stack.
  destruct (invalid _).
  { cbn. repeat split; try constructor. intros x []. }
  unfold bind at 1. unfold await at 1. cbn [awaited initial].
  destruct (rejects env 0).
  { cbn. repeat split; try constructor. intros x []. }
  unfold bind at 1. cbn [Logger_log].
  unfold bind at 1. unfold await at 1. cbn [awaited emit tick initial].
  destruct (rejects env 1).
  { cbn. repeat split; try constructor. intros x []. }
  unfold bind at 1. cbn [add]. unfold bind at 1. cbn [reset_published].
  rewrite final_bind_ret.
  apply poll_deduplicated; [exact Henv|].
  cbn. repeat split; try constructor. intros x [].
Qed.

(** C7 (as amended). When no single batch of stack events lists an event
    id twice, one run of [createNamespace], over any number of polls,
    publishes no event id twice. *)
Theorem published_once env fuel p :
  distinct_batches env ->
  NoDup (published_ids (trace (final (createNamespace env fuel p initial)))).
Proof.
  intros Henv. unfold createNamespace.
  pose proof (deduplicated_create_stack env fuel p Henv) as [_ [_ H]].
  destruct (final_bind (create_stack env fuel p)
              (fun StackName =>
                 outputs <- stack_outputs env StackName ;;
                 create_cluster_side env p outputs) initial)
    as [E|[StackName E]]; rewrite E; [exact H|].
  assert (Hq : respects (appends (only not_published))
                 (outputs <- stack_outputs env StackName ;;
                  create_cluster_side env p outputs)).
  { apply respects_bind; [exact _ | |].
    - apply only_stack_outputs, plain_not_published.
    - intros outputs. apply only_create_cluster_side, plain_not_published. }
  destruct (Hq (final (create_stack env fuel p initial))) as [tr [Etr Htr]].
  unfold published_ids in *.
  rewrite Etr, published_events_app, (only_not_published tr Htr), app_nil_r.
  exact H.
Qed.

Lemma distinct_batches_late_event : distinct_batches late_event.
Proof.
  intros n events H. unfold late_event, scripted in H. cbn in H.
  do 8 (destruct n as [|n]; cbn in H;
        [ try discriminate; injection H as <-; cbn; repeat constructor;
          cbn; intuition discriminate |]).
  destruct n; discriminate.
Qed.

Lemma published_once_witness :
  NoDup (published_ids
           (trace (final (createNamespace late_event 5 team_a initial)))).
Proof.
  apply (published_once late_event 5 team_a).
  exact distinct_batches_late_event.
Defined.

(** C7, as stated, fails: a batch that lists the event id [a] twice has it
    published twice, because the ids already published are filtered out
    before any event of the batch is published. *)
Lemma published_twice :
  let s := final (createNamespace repeated_id 5 team_a initial) in
  published_ids (trace s) = ["a"; "a"]
  /\ ~ NoDup (published_ids (trace s)).
Proof.
  cbv zeta.
  assert (E : published_ids
                (trace (final (createNamespace repeated_id 5 team_a initial)))
              = ["a"; "a"]) by (vm_compute; reflexivity).
  rewrite E. split; [reflexivity|].
  intros H. inversion H as [|? ? Hin _]; subst. apply Hin. now left.
Qed.

(** C3 (as amended). The events published by one poll, that is by one
    batch, are published in non-decreasing order of their timestamps. *)
Theorem batch_published_in_time_order batch s :
  exists events,
    published_events (trace (final (publish_batch batch s)))
    = (published_events (trace s) ++ events)%list
    /\ in_time_order events.
Proof.
  unfold publish_batch, bind, published.
  match goal with
  | |- context [forEach publish ?l s] =>
      destruct (forEach_publish_prefix l s) as [k Hk];
      exists (firstn k l); split; [exact Hk|]
  end.
  apply firstn_in_time_order, filter_in_time_order, sort_in_time_order.
Qed.

Lemma not_in_time_order_10_5 e1 e2 :
  Timestamp e1 = 10%Z -> Timestamp e2 = 5%Z -> ~ in_time_order [e1; e2].
Proof.
  intros H1 H2 H. inversion H as [|? ? _ Hall]; subst.
  inversion Hall as [|? ? Hle _]; subst. rewrite H1, H2 in Hle. lia.
Qed.

(** C3, as stated, fails across polls: the event [a] of time 10 is
    published by the first poll, the event [b] of time 5 by the second. *)
Lemma published_out_of_time_order :
  let s := final (createNamespace late_event 5 team_a initial) in
  fst (createNamespace late_event 5 team_a initial) = Ok tt
  /\ published_ids (trace s) = ["a"; "b"]
  /\ timestamps (trace s) = [10; 5]%Z
  /\ ~ in_time_order (published_events (trace s)).
Proof.
  cbv zeta. repeat split; try (vm_compute; reflexivity).
  assert (E : published_events
                (trace (final (createNamespace late_event 5 team_a initial)))
              = [stack_event "a" 10 None; stack_event "b" 5 None])
    by (vm_compute; reflexivity).
  rewrite E. now apply not_in_time_order_10_5.
Qed.

(** C4 (as amended). An event whose [ResourceProperties] is absent
    (undefined or the empty string) is published without failure: the
    properties are read as the empty object and the line is the resource
    type, the status and the reason, with no resource name. Properties that
    are present and are not JSON are not absorbed: the [SyntaxError] of
    [JSON.parse] is thrown, after the id was recorded and before any line
    is logged. *)
Theorem publish_reads_properties e s :
  let s1 := set_published (publishedEventIds s ++ [EventId e])%list s in
  (Js.truthy_opt (ResourceProperties e) = false ->
   publish e s
   = (Ok tt,
      emit (Published e "create-namespace|CloudFormation"
              (Js.show (ResourceType e) ++ " | " ++ Js.show (ResourceStatus e)
               ++ match ResourceStatusReason e with
                  | Some reason =>
                      if Js.truthy reason then " | " ++ reason else ""
                  | None => ""
                  end)) s1))
  /\ (forall text,
        ResourceProperties e = Some text -> Js.truthy text = true ->
        JSON.parse text = None ->
        publish e s = (Threw (SyntaxError text), s1)).
Proof.
  cbv zeta. split.
  - intros H.
    assert (E : properties_text e = "{}").
    { unfold properties_text. destruct (ResourceProperties e) as [text|];
        [|reflexivity]. cbn in H. now rewrite H. }
    unfold publish, bind, push, JSON_parse. rewrite E. reflexivity.
  - intros text E Ht Hp.
    unfold publish, bind, push, JSON_parse, properties_text.
    rewrite E, Ht, Hp. reflexivity.
Qed.

Lemma publish_reads_properties_witness :
  publish (stack_event "a" 10 None) initial
  = (Ok tt,
     emit (Published (stack_event "a" 10 None)
             "create-namespace|CloudFormation"
             "AWS::IAM::Role | CREATE_IN_PROGRESS")
       (set_published ["a"] initial))
  /\ publish (stack_event "b" 5 (Some "{")) initial
     = (Threw (SyntaxError "{"), set_published ["b"] initial).
Proof.
  split.
  - apply (proj1 (publish_reads_properties (stack_event "a" 10 None) initial)).
    reflexivity.
  - apply (proj2 (publish_reads_properties (stack_event "b" 5 (Some "{"))
                    initial));
      reflexivity.
Defined.

(** C4, as stated, fails: with the properties [{] the error leaves the
    polling loop and the command; the last thing done is the read of the
    events. *)
Lemma unparsable_properties_stop_the_run :
  let r := createNamespace broken_properties 5 team_a initial in
  fst r = Threw (SyntaxError "{")
  /\ published_ids (trace (final r)) = ["a"]
  /\ last (trace (final r)) (Slept 0)
     = Called (cf_describeStackEvents "team-a-namespace") true.
Proof. vm_compute. repeat split. Qed.

(** C5 (as amended). When the polling loop has ended and the read that
    follows shows a status other than [CREATE_COMPLETE], the command throws
    the error of fixed message "Unexpected AWS CloudFormation stack
    creation result.", whatever that status and whatever the outputs of
    the stack; nothing is done after the read. *)
Theorem failed_stack_reads_no_outputs env fuel p s StackName s1 stack :
  create_stack env fuel p s = (Ok StackName, s1) ->
  rejects env (awaited s1) = None ->
  Stacks env (awaited s1) = Some [stack] ->
  StackStatus stack <> "CREATE_COMPLETE" ->
  createNamespace env fuel p s
  = (Threw (Error "Unexpected AWS CloudFormation stack creation result."),
     emit (Called (cf_describeStacks StackName) true) (tick s1)).
Proof.
  intros Hrun Hcall Hstacks Hstatus.
  unfold createNamespace, bind at 1. rewrite Hrun.
  unfold bind at 1. unfold stack_outputs, describeStack, bind, await.
  rewrite Hcall, Hstacks. unfold ret. cbv beta iota.
  apply String.eqb_neq in Hstatus. now rewrite Hstatus.
Qed.

Lemma failed_stack_reads_no_outputs_witness :
  createNamespace rolled_back 5 team_a initial
  = (Threw (Error "Unexpected AWS CloudFormation stack creation result."),
     emit (Called (cf_describeStacks "team-a-namespace") true)
       (tick (snd (create_stack rolled_back 5 team_a initial)))).
Proof.
  apply (failed_stack_reads_no_outputs rolled_back 5 team_a initial
           "team-a-namespace"
           (snd (create_stack rolled_back 5 team_a initial))
           (stack_in "ROLLBACK_COMPLETE" role_outputs)).
  - reflexivity.
  - reflexivity.
  - reflexivity.
  - discriminate.
Defined.

(** C5, as stated, fails: the message of the error does not name the
    status [ROLLBACK_COMPLETE] that was read. *)
Lemma error_does_not_name_the_status :
  exists message,
    fst (createNamespace rolled_back 5 team_a initial) = Threw (Error message)
    /\ Js.includes message "ROLLBACK_COMPLETE" = false.
Proof. eexists. split; vm_compute; reflexivity. Qed.

(** C8. When the compensation of the mapping entry runs and exactly one
    entry of the document it reads has its role identifier, the document
    it writes back is the one read without that entry, wherever the entry
    stood; of three entries the other two remain, in their order. *)
Theorem matching_entry_removed env roleArn s before role after :
  rejects env (awaited s) = None ->
  rejects env (S (awaited s)) = None ->
  mapRoles env (awaited s) = (before ++ role :: after)%list ->
  rolearn role = roleArn ->
  (forall other, In other (before ++ after)%list -> rolearn other <> roleArn) ->
  run env (RemoveMapRole roleArn) s
  = (Ok tt,
     emit (Called (k8s_replaceNamespacedConfigMap aws_auth kube_system
                     (before ++ after)%list) true)
       (tick (emit (Called (k8s_readNamespacedConfigMap aws_auth kube_system)
                      true) (tick s)))).
Proof.
  intros H1 H2 Hroles Hrole Hothers.
  assert (Hkeep : forall l,
             (forall other, In other l -> rolearn other <> roleArn) ->
             filter (fun r => negb (rolearn r =? roleArn)) l = l).
  { induction l as [|x l IH]; intros Hl; [reflexivity|]. cbn.
    destruct (String.eqb_spec (rolearn x) roleArn) as [E|_].
    - exfalso. apply (Hl x); [now left | exact E].
    - cbn. f_equal. apply IH. intros o Ho. apply Hl. now right. }
  unfold run, bind, await. rewrite H1. cbn [awaited emit tick].
  rewrite H2, Hroles, filter_app. cbn [filter].
  rewrite Hrole, String.eqb_refl. cbn [negb].
  rewrite !Hkeep; [reflexivity| |];
    intros o Ho; apply Hothers, in_or_app; auto.
Qed.

Lemma matching_entry_removed_witness :
  run (scripted [WithRoles [entry "x"; entry "team-a-admin-c1-k8s-role";
                            entry "y"]])
    (RemoveMapRole "team-a-admin-c1-k8s-role") initial
  = (Ok tt,
     emit (Called (k8s_replaceNamespacedConfigMap aws_auth kube_system
                     [entry "x"; entry "y"]) true)
       (tick (emit (Called (k8s_readNamespacedConfigMap aws_auth kube_system)
                      true) (tick initial)))).
Proof.
  apply (matching_entry_removed
           (scripted [WithRoles [entry "x"; entry "team-a-admin-c1-k8s-role";
                                 entry "y"]])
           "team-a-admin-c1-k8s-role" initial [entry "x"]
           (entry "team-a-admin-c1-k8s-role")
           [entry "y"]).
  - reflexivity.
  - reflexivity.
  - reflexivity.
  - reflexivity.
  - intros other [<-|[<-|[]]]; discriminate.
Defined.

(** C1, on the code. With the outputs [AdminKubernetesRole = arn:admin]
    and [DeploymentsKubernetesRole = arn:deploy] the run succeeds, and the
    two entries it appends carry as [rolearn] the names derived from the
    namespace, the suffix and the cluster, not the output values; the
    parameter [roleArn] has no influence on what
    [createKubernetesNamespaceUser] does. *)
Theorem rolearn_is_a_derived_name :
  let r := createNamespace converged 5 team_a initial in
  fst r = Ok tt
  /\ map (map rolearn) (written (trace (final r)))
     = [ ["team-a-admin-c1-k8s-role"];
         ["team-a-admin-c1-k8s-role"; "team-a-deployments-c1-k8s-role"] ]
  /\ (forall env p s arn,
        createKubernetesNamespaceUser env p s
        = createKubernetesNamespaceUser env
            {| User.clusterName := User.clusterName p;
               User.namespaceName := User.namespaceName p;
               User.roleArn := arn;
               User.suffix := User.suffix p;
               User.rbacRules := User.rbacRules p |} s).
Proof.
  cbv zeta. split; [vm_compute; reflexivity|].
  split; [vm_compute; reflexivity|]. reflexivity.
Qed.

Lemma invalid_throws env fuel p s :
  invalid (Namespace.namespaceName p) = true ->
  createNamespace env fuel p s
  = (Threw (Error ("Namespace name is invalid: " ++ Namespace.namespaceName p)),
     s).
Proof.
  intros H. unfold createNamespace, bind, create_stack. now rewrite H.
Qed.

(** C9. For every namespace name that the pattern does not match,
    [createNamespace] throws the validation error and leaves the state as
    it was: no call was made and nothing was added to the revert stack. *)
Theorem invalid_name_rejected_first env fuel p s :
  RegExp.matches namespace_pattern (Namespace.namespaceName p) = false ->
  createNamespace env fuel p s
  = (Threw (Error ("Namespace name is invalid: " ++ Namespace.namespaceName p)),
     s).
Proof.
  intros H. apply invalid_throws. unfold invalid. rewrite H.
  apply orb_true_r.
Qed.

Lemma invalid_name_rejected_first_witness :
  createNamespace converged 5
    {| Namespace.clusterName := "c1"; Namespace.namespaceName := "team_a" |}
    initial
  = (Threw (Error "Namespace name is invalid: team_a"), initial).
Proof.
  apply (invalid_name_rejected_first converged 5
           {| Namespace.clusterName := "c1";
              Namespace.namespaceName := "team_a" |} initial).
  reflexivity.
Defined.

Lemma valid_name_proceeds env fuel p s :
  invalid (Namespace.namespaceName p) = false ->
  let name := Namespace.namespaceName p in
  let made fulfilled := Called (makeDir ("./namespaces/" ++ name)) fulfilled in
  match rejects env (awaited s) with
  | Some message =>
      createNamespace env fuel p s
      = (Threw (Rejected message), emit (made false) (tick s))
  | None =>
      exists fulfilled rest,
        trace (final (createNamespace env fuel p s))
        = (trace s
           ++ [ made true;
                Logged Namespace.TAG
                  ("Creating AWS CloudFormation Stack "
                   ++ Js.quoted (name ++ "-namespace") ++ "...");
                Called (cf_createStack (name ++ "-namespace") name) fulfilled ]
           ++ rest)%list
  end.
Proof.
  intros Hvalid. cbv zeta. unfold createNamespace, create_stack.
  rewrite Hvalid. cbv beta iota zeta.
  destruct (rejects env (awaited s)) as [message|] eqn:Hmake.
  { rewrite bind_assoc. unfold bind at 1. unfold await at 1.
    now rewrite Hmake. }
  assert (Hrest : forall StackName,
             respects (appends (only any_event))
               (StackName' <-
                  (add (RemoveStack StackName) ;; reset_published ;;
                   poll env fuel StackName ;; ret StackName) ;;
                outputs <- stack_outputs env StackName' ;;
                create_cluster_side env p outputs)).
  { intros StackName.
    apply respects_bind; [exact _ | | intros StackName'].
    - apply respects_bind; [exact _ | | intros _].
      { apply only_emit with (f := register (RemoveStack StackName)); auto. }
      apply respects_bind; [exact _ | | intros _].
      { intros s'. exists []. now rewrite app_nil_r. }
      apply respects_bind; [exact _ | apply only_poll; auto | intros _].
      apply respects_ret; exact _.
    - apply respects_bind; [exact _ | | intros outputs].
      + apply only_stack_outputs; auto.
      + apply only_create_cluster_side; auto. }
  match goal with
  | |- exists _ _, trace (final ?run) = _ => remember run as r eqn:Hr
  end.
  rewrite bind_assoc in Hr. unfold bind at 1 in Hr. unfold await at 1 in Hr.
  rewrite Hmake in Hr. rewrite bind_assoc in Hr. unfold bind at 1 in Hr.
  cbn [Logger_log] in Hr.
  rewrite bind_assoc in Hr. unfold bind at 1 in Hr. unfold await at 1 in Hr.
  cbn [awaited emit tick] in Hr.
  destruct (rejects env (S (awaited s))) as [message|].
  - exists false, []. subst r. cbn. rewrite <- !app_assoc. reflexivity.
  - match type of Hr with
    | _ = bind ?m ?k ?s1 =>
        destruct (Hrest (Namespace.namespaceName p ++ "-namespace") s1)
          as [rest [E _]]
    end.
    exists true, rest. subst r. rewrite E. cbn. rewrite <- !app_assoc.
    reflexivity.
Qed.

(** C10. The check of the namespace name ignores case: the pattern
    matches exactly the names made of a letter of either case followed by
    letters, digits and hyphens; [createNamespace] throws the validation
    error exactly for the other names, and for a matching name goes on to
    [makeDir]; [Team-A] matches, and once its directory is made the stack
    [Team-A-namespace] is requested from CloudFormation. *)
Theorem name_check_ignores_case :
  (forall name, RegExp.matches namespace_pattern name = well_formed name)
  /\ (forall env fuel p s,
        let name := Namespace.namespaceName p in
        if well_formed name
        then exists fulfilled rest,
            trace (final (createNamespace env fuel p s))
            = (trace s
               ++ Called (makeDir ("./namespaces/" ++ name)) fulfilled
                  :: rest)%list
        else createNamespace env fuel p s
             = (Threw (Error ("Namespace name is invalid: " ++ name)), s))
  /\ well_formed "Team-A" = true
  /\ (forall env fuel clusterName s,
        rejects env (awaited s) = None ->
        exists fulfilled rest,
          trace (final (createNamespace env fuel
                          {| Namespace.clusterName := clusterName;
                             Namespace.namespaceName := "Team-A" |} s))
          = (trace s
             ++ [ Called (makeDir "./namespaces/Team-A") true;
                  Logged "create-namespace"
                    ("Creating AWS CloudFormation Stack "
                     ++ Js.quoted "Team-A-namespace" ++ "...");
                  Called (cf_createStack "Team-A-namespace" "Team-A")
                    fulfilled ]
             ++ rest)%list).
Proof.
  split; [exact pattern_well_formed|]. split; [|split; [reflexivity|]].
  - intros env fuel p s. cbv zeta.
    destruct (well_formed (Namespace.namespaceName p)) eqn:Hw.
    + pose proof (valid_name_proceeds env fuel p s) as H.
      rewrite invalid_well_formed, Hw in H. specialize (H eq_refl).
      cbv zeta in H. destruct (rejects env (awaited s)) as [message|].
      * rewrite H. exists false, []. reflexivity.
      * destruct H as [fulfilled [rest H]]. rewrite H. eexists _, _.
        reflexivity.
    + apply invalid_throws. now rewrite invalid_well_formed, Hw.
  - intros env fuel clusterName s Hs.
    pose proof (valid_name_proceeds env fuel
                  {| Namespace.clusterName := clusterName;
                     Namespace.namespaceName := "Team-A" |} s eq_refl) as H.
    cbv zeta in H. rewrite Hs in H. exact H.
Qed.

Lemma name_check_ignores_case_witness :
  exists fulfilled rest,
    trace (final (createNamespace converged 5
                    {| Namespace.clusterName := "c1";
                       Namespace.namespaceName := "Team-A" |} initial))
    = ([ Called (makeDir "./namespaces/Team-A") true;
         Logged "create-namespace"
           ("Creating AWS CloudFormation Stack "
            ++ Js.quoted "Team-A-namespace" ++ "...");
         Called (cf_createStack "Team-A-namespace" "Team-A") fulfilled ]
       ++ rest)%list.
Proof.
  apply (proj2 (proj2 (proj2 name_check_ignores_case)) converged 5 "c1"
           initial).
  reflexivity.
Defined.

(** ** Unwinding *)

Lemma run_settles env c s : fst (run env c s) <> Polling.
Proof.
  destruct c; cbn [run]; unfold bind, await, Logger_log, ret; cbn;
    repeat match goal with
           | |- context [rejects env ?n] => destruct (rejects env n)
           end; cbn; discriminate.
Qed.

Lemma unwind_each_invokes env cs s :
  exists tr,
    trace (final (unwind_each env cs s)) = (trace s ++ tr)%list
    /\ invoked tr = cs.
Proof.
  revert s. induction cs as [|c cs IH]; intros s.
  - exists []. cbn. now rewrite app_nil_r.
  - cbn [unwind_each].
    destruct (only_run env not_invoked plain_not_invoked c (emit (Invoked c) s))
      as [tr1 [E1 H1]].
    apply only_not_invoked in H1.
    pose proof (run_settles env c (emit (Invoked c) s)) as Hsettles.
    unfold final in *.
    destruct (run env c (emit (Invoked c) s)) as [[[]|e|] s1];
      cbn [fst snd] in *; [| |congruence].
    + destruct (IH s1) as [tr [E Htr]]. exists (Invoked c :: tr1 ++ tr)%list.
      rewrite E, E1. cbn. rewrite <- !app_assoc. split; [reflexivity|].
      now rewrite invoked_app, H1, Htr.
    + destruct (IH (emit (Reported c e) s1)) as [tr [E Htr]].
      exists (Invoked c :: tr1 ++ Reported c e :: tr)%list.
      rewrite E. cbn. rewrite E1. cbn. rewrite <- !app_assoc. cbn.
      split; [reflexivity|]. now rewrite invoked_app, H1; cbn; rewrite Htr.
Qed.

Lemma forward_registers before :
  forall s0 s1,
    (forall step, In step before -> leaves_stack (action step)) ->
    forward before s0 = (Ok tt, s1) ->
    exists ks,
      revertStack s1 = (revertStack s0 ++ ks)%list
      /\ Forall2 (fun step k => exists outputs, k = compensation step outputs)
           before ks.
Proof.
  induction before as [|a before IH]; intros s0 s1 Hleave Hrun.
  - cbn in Hrun. inversion Hrun; subst. exists []. rewrite app_nil_r.
    split; [reflexivity | constructor].
  - cbn [forward] in Hrun. unfold bind at 1 in Hrun.
    pose proof (Hleave a (or_introl eq_refl) s0) as Hstack.
    unfold final in Hstack.
    destruct (action a s0) as [[outputs|e|] s'] eqn:Ea; try discriminate.
    unfold bind at 1 in Hrun. cbn [add] in Hrun.
    apply IH in Hrun; [|intros step Hstep; apply Hleave; now right].
    destruct Hrun as [ks [E Hks]]. cbn in E, Hstack. rewrite Hstack in E.
    exists (compensation a outputs :: ks). split.
    + rewrite E, <- app_assoc. reflexivity.
    + constructor; [now exists outputs | exact Hks].
Qed.

Lemma forward_stops before a after :
  forall s0 s1 e s2,
    forward before s0 = (Ok tt, s1) ->
    action a s1 = (Threw e, s2) ->
    forward (before ++ a :: after) s0 = (Threw e, s2).
Proof.
  induction before as [|b before IH]; intros s0 s1 e s2 Hrun Hfail.
  - cbn in Hrun. inversion Hrun; subst. cbn [app forward]. unfold bind.
    now rewrite Hfail.
  - cbn [app forward] in *. unfold bind at 1 in Hrun. unfold bind at 1.
    destruct (action b s0) as [[outputs|e'|] s']; try discriminate.
    unfold bind at 1 in Hrun. unfold bind at 1. cbn [add] in *.
    eapply IH; eauto.
Qed.

(** C2. When the first [k-1] forward actions of a request succeed and
    action [k] fails, [runForward] raises the failure of action [k] again,
    and what it has invoked by then is exactly the [k-1] compensations
    added for the actions that succeeded, each once, in the reverse of the
    order in which they were added. *)
Theorem failure_unwinds_in_reverse env before a after s0 s1 e s2 :
  revertStack s0 = [] ->
  (forall step, In step (before ++ [a]) -> leaves_stack (action step)) ->
  forward before s0 = (Ok tt, s1) ->
  action a s1 = (Threw e, s2) ->
  let r := runForward env (before ++ a :: after) s0 in
  fst r = Threw e
  /\ length (revertStack s1) = length before
  /\ Forall2 (fun step k => exists outputs, k = compensation step outputs)
       before (revertStack s1)
  /\ exists tr,
      trace (final r) = (trace s2 ++ tr)%list
      /\ invoked tr = rev (revertStack s1).
Proof.
  intros Hempty Hleave Hrun Hfail. cbv zeta.
  destruct (forward_registers before s0 s1) as [ks [Eks Hks]]; auto.
  { intros step Hstep. apply Hleave, in_or_app. now left. }
  rewrite Hempty in Eks. cbn in Eks.
  assert (Hs2 : revertStack s2 = revertStack s1).
  { assert (Ha : In a (before ++ [a])) by (apply in_or_app; right; now left).
    pose proof (Hleave a Ha s1) as H. unfold final in H.
    now rewrite Hfail in H. }
  unfold runForward.
  rewrite (forward_stops before a after s0 s1 e s2 Hrun Hfail).
  cbn [fst]. split; [reflexivity|]. rewrite Eks.
  split; [symmetry; eapply Forall2_length; eauto|]. split; [exact Hks|].
  unfold unwind, final. cbn [snd]. rewrite Hs2, Eks.
  apply unwind_each_invokes.
Qed.

Lemma calling_leaves_stack env c k : leaves_stack (action (calling env c k)).
Proof.
  intros s. cbn. unfold bind, await, final.
  destruct (rejects env (awaited s)); reflexivity.
Qed.

Lemma failure_unwinds_in_reverse_witness :
  let succeeded := [namespace_step; role_step] in
  let s1 := final (forward succeeded initial) in
  let s2 := final (action binding_step s1) in
  let r := runForward third_call_rejected (succeeded ++ [binding_step])
             initial in
  fst r = Threw (Rejected "binding refused")
  /\ length (revertStack s1) = length succeeded
  /\ Forall2 (fun step k => exists outputs, k = compensation step outputs)
       succeeded (revertStack s1)
  /\ exists tr,
      trace (final r) = (trace s2 ++ tr)%list
      /\ invoked tr = rev (revertStack s1).
Proof.
  apply (failure_unwinds_in_reverse third_call_rejected
           [namespace_step; role_step] binding_step [] initial
           (final (forward [namespace_step; role_step] initial))
           (Rejected "binding refused")
           (final (action binding_step
                     (final (forward [namespace_step; role_step] initial))))).
  - reflexivity.
  - intros step [<-|[<-|[<-|[]]]]; apply calling_leaves_stack.
  - reflexivity.
  - reflexivity.
Defined.
